(** * An in-memory database with a chainable query scope

    Shallow embedding of [src/Base/Model.ts]: the abstract class [Model] and
    the class [Database], over an explicit store of JavaScript objects.

    - A JavaScript [Map<number, T>] iterates in insertion order, and [set] on
      a key that is present keeps the key's place.  It is an association
      list here ([JSMap]), whose keys are pairwise distinct in every state
      the program builds ([JSMap.wf]).
    - Records are objects, held by reference: [records] and [lastQuery] store
      locations of a heap of objects, so that two map entries may share one
      object, as they do after [where].
    - Identities are JavaScript numbers.  They are integers here; [++] is
      exact on them below 2^53. *)

From stdpp Require Import gmap strings list fin_maps sorting.
From Stdlib Require Import ZArith.

Local Open Scope Z_scope.

(** ** Insertion-ordered maps keyed by numbers *)

Module JSMap.
Section ordered_map.
Context {V : Type}.

Fixpoint get (k : Z) (m : list (Z * V)) : option V :=
  match m with
  | [] => None
  | (k', v) :: m' => if decide (k' = k) then Some v else get k m'
  end.

Definition has (k : Z) (m : list (Z * V)) : bool :=
  match get k m with Some _ => true | None => false end.

(** [set] overwrites in place when the key is present, appends otherwise. *)
Fixpoint set (k : Z) (v : V) (m : list (Z * V)) : list (Z * V) :=
  match m with
  | [] => [(k, v)]
  | (k', v') :: m' =>
      if decide (k' = k) then (k, v) :: m' else (k', v') :: set k v m'
  end.

Definition remove (k : Z) (m : list (Z * V)) : list (Z * V) :=
  filter (λ e, e.1 ≠ k) m.

(** [Map.prototype.delete]: tells whether the key was there. *)
Definition delete (k : Z) (m : list (Z * V)) : bool * list (Z * V) :=
  (has k m, remove k m).

Definition clear (m : list (Z * V)) : list (Z * V) := [].

Definition size (m : list (Z * V)) : nat := length m.

Definition keys (m : list (Z * V)) : list Z := m.*1.

Definition wf (m : list (Z * V)) : Prop := NoDup (keys m).

End ordered_map.
End JSMap.

(** ** Values, objects and the store *)

Abbreviation loc := nat.

(** The values a field can hold.  Numbers other than [NaN] are integers
    here; objects are compared by reference. *)
Inductive value :=
| VUndefined
| VNull
| VBool (b : bool)
| VNum (n : Z)
| VNaN
| VStr (s : string)
| VRef (l : loc).

#[global] Instance value_eq_dec : EqDecision value.
Proof. solve_decision. Defined.

(** The operator [===]. *)
Definition strict_eq (a b : value) : bool :=
  match a with
  | VNaN => false
  | _ => bool_decide (a = b)
  end.

(** An object is a finite map from property names to values; the store is
    the sequence of the objects allocated so far, a reference is an index
    into it. *)
Abbreviation obj := (gmap string value).
Abbreviation heap := (list (gmap string value)).

Definition deref (h : heap) (l : loc) : obj := default ∅ (h !! l).

(** [o[col]]: a property that is absent reads as [undefined]. *)
Definition get_field (h : heap) (l : loc) (col : string) : value :=
  default VUndefined (deref h l !! col).

(** [o[col] = v] *)
Definition set_field (l : loc) (col : string) (v : value) (h : heap) : heap :=
  alter (<[col := v]>) l h.

Definition alloc (o : obj) (h : heap) : heap * loc := (h ++ [o], length h).

(** Every reference held by a map points into the store. *)
Definition refs_valid (h : heap) (m : list (Z * loc)) : Prop :=
  ∀ k l, (k, l) ∈ m → (l < length h)%nat.

(** ** The class [Model] *)

Module Model.

(** An instance holds its own [id] property and, through the closures of
    its accessors, the object it was built from. *)
Record t := mk { id : value; definition : loc }.

(** [this.id = definition.id]; every other key of [definition] becomes an
    accessor property that reads and writes [definition[key]]. *)
Definition constructor (definition : loc) (h : heap) : t :=
  {| id := get_field h definition "id"; definition := definition |}.

(** [model[key]] *)
Definition get_prop (m : t) (key : string) (h : heap) : value :=
  if decide (key = "id") then id m else get_field h (definition m) key.

(** [model[key] = v].  [id] is an own data property of the instance.  A
    key of the definition goes through the setter.  Any other key would
    become a new own property of the instance, which this record does not
    hold; the store is not touched. *)
Definition set_prop (m : t) (key : string) (v : value) (h : heap) : t * heap :=
  if decide (key = "id") then ({| id := v; definition := definition m |}, h)
  else if decide (is_Some (deref h (definition m) !! key))
       then (m, set_field (definition m) key v h)
       else (m, h).

End Model.

(** ** The class [Database] *)

(** What [update] throws: [new Error(`Record under ${id} did not exist in
    the database`)], kept as the identity it names. *)
Inductive error := RecordDidNotExist (id : Z).

Inductive completion (A : Type) :=
| Return (a : A)
| Throw (e : error).
Arguments Return {A} a.
Arguments Throw {A} e.

Module Database.

Record t := mk {
  autoincrement : Z;
  records : list (Z * loc);
  lastQuery : list (Z * loc)
}.

(** [new Database(modelDefinition)] *)
Definition new : t := {| autoincrement := 0; records := []; lastQuery := [] |}.

Definition clear_lastQuery (db : t) : t :=
  {| autoincrement := autoincrement db;
     records := records db;
     lastQuery := JSMap.clear (lastQuery db) |}.

Definition with_lastQuery (q : list (Z * loc)) (db : t) : t :=
  {| autoincrement := autoincrement db; records := records db; lastQuery := q |}.

(** [new this.modelDefinition(Object.assign({ id }, definition))]:
    [Object.assign] builds a new object, [{ id }] overwritten by the own
    properties of [definition] (none when there is no such object).
    [modelDefinition] is a class that extends [Model]; its constructor is
    taken to be [Model]'s. *)
Definition createFromTemplate (definition : loc) (id : Z) (h : heap)
  : heap * Model.t :=
  let '(h', l) := alloc (deref h definition ∪ {["id" := VNum id]}) h in
  (h', Model.constructor l h').

Definition switchRecordsRetrieval (state : bool) (db : t) : list (Z * loc) :=
  if state then lastQuery db else records db.

(** The body shared by [all] and [get]: [forEach] over the entries,
    pushing one new model each. *)
Fixpoint forEach_push (entries : list (Z * loc)) (h : heap)
    (models : list Model.t) : heap * list Model.t :=
  match entries with
  | [] => (h, models)
  | (index, record) :: rest =>
      let '(h', m) := createFromTemplate record index h in
      forEach_push rest h' (models ++ [m])
  end.

Definition all (db : t) (h : heap) : heap * list Model.t :=
  forEach_push (records db) h [].

Definition count (scopedSize : bool) (db : t) : nat :=
  if scopedSize then JSMap.size (lastQuery db) else JSMap.size (records db).

Fixpoint delete_loop (entries : list (Z * loc)) (recs : list (Z * loc))
    (recordsRemoved : nat) : list (Z * loc) * nat :=
  match entries with
  | [] => (recs, recordsRemoved)
  | (index, _) :: rest =>
      let '(removed, recs') := JSMap.delete index recs in
      delete_loop rest recs' (if removed then S recordsRemoved else recordsRemoved)
  end.

Definition delete (db : t) : t * nat :=
  let '(recs, recordsRemoved) := delete_loop (lastQuery db) (records db) 0 in
  ({| autoincrement := autoincrement db;
      records := recs;
      lastQuery := JSMap.clear (lastQuery db) |}, recordsRemoved).

Definition find (index : Z) (db : t) (h : heap) : heap * option Model.t :=
  match JSMap.get index (records db) with
  | None => (h, None)
  | Some model =>
      let '(h', m) := createFromTemplate model index h in (h', Some m)
  end.

Definition first (retrieveFromLastQuery : bool) (db : t) (h : heap)
  : t * heap * option Model.t :=
  match switchRecordsRetrieval retrieveFromLastQuery db with
  | [] => (db, h, None)
  | (index, record) :: _ =>
      let '(h', m) := createFromTemplate record index h in
      (clear_lastQuery db, h', Some m)
  end.

Definition get (db : t) (h : heap) : t * heap * list Model.t :=
  let '(h', models) := forEach_push (lastQuery db) h [] in
  (clear_lastQuery db, h', models).

Definition insert (definition : loc) (db : t) (h : heap)
  : t * heap * Model.t :=
  let a := autoincrement db + 1 in
  let '(h', m) := createFromTemplate definition a h in
  ({| autoincrement := a;
      records := JSMap.set a definition (records db);
      lastQuery := lastQuery db |}, h', m).

Definition last (retrieveFromLastQuery : bool) (db : t) (h : heap)
  : t * heap * option Model.t :=
  match JSMap.get (autoincrement db)
          (switchRecordsRetrieval retrieveFromLastQuery db) with
  | None => (db, h, None)
  | Some lastModel =>
      let '(h', m) := createFromTemplate lastModel (autoincrement db) h in
      (clear_lastQuery db, h', Some m)
  end.

Definition truncate (db : t) : t :=
  {| autoincrement := autoincrement db;
     records := JSMap.clear (records db);
     lastQuery := JSMap.clear (lastQuery db) |}.

(** The loop of [update].  A throw leaves the writes made so far. *)
Fixpoint update_loop (col : string) (v : value) (recs : list (Z * loc))
    (entries : list (Z * loc)) (h : heap) : heap * option error :=
  match entries with
  | [] => (h, None)
  | (index, record) :: rest =>
      match JSMap.get index recs with
      | None => (h, Some (RecordDidNotExist index))
      | Some dbModel =>
          update_loop col v recs rest
            (set_field dbModel col v (set_field record col v h))
      end
  end.

(** [update] returns [this]: the maps and the counter as they were. *)
Definition update (col : string) (v : value) (db : t) (h : heap)
  : heap * completion t :=
  match update_loop col v (records db) (lastQuery db) h with
  | (h', None) => (h', Return db)
  | (h', Some e) => (h', Throw e)
  end.

(** [index] is typed as a number, which nothing checks at run time: a value
    that is not a number is the key of no entry. *)
Definition whereIndexed (index : value) (db : t) : t :=
  match index with
  | VNum n =>
      match JSMap.get n (records db) with
      | Some model => with_lastQuery (JSMap.set n model (lastQuery db)) db
      | None => db
      end
  | _ => db
  end.

Fixpoint where_loop (col : string) (v : value) (h : heap)
    (entries : list (Z * loc)) (q : list (Z * loc)) : list (Z * loc) :=
  match entries with
  | [] => q
  | (index, record) :: rest =>
      where_loop col v h rest
        (if strict_eq (get_field h record col) v
         then JSMap.set index record q else q)
  end.

Definition where_ (whereColumn : string) (v : value) (db : t) (h : heap) : t :=
  if decide (whereColumn = "id") then whereIndexed v db
  else with_lastQuery (where_loop whereColumn v h (records db) (lastQuery db)) db.

End Database.

(** ** Programs against the public interface *)

Inductive op :=
| Insert (definition : loc)
| Find (index : Z)
| All
| Count (scopedSize : bool)
| Where (whereColumn : string) (v : value)
| Get
| First (retrieveFromLastQuery : bool)
| Last (retrieveFromLastQuery : bool)
| Update (col : string) (v : value)
| Delete
| Truncate.

Inductive output :=
| OutModel (m : option Model.t)
| OutModels (ms : list Model.t)
| OutNumber (n : nat)
| OutThis
| OutVoid
| OutError (e : error).

Definition exec (o : op) (s : Database.t * heap) : Database.t * heap * output :=
  let '(db, h) := s in
  match o with
  | Insert definition =>
      let '(db', h', m) := Database.insert definition db h in
      (db', h', OutModel (Some m))
  | Find index =>
      let '(h', m) := Database.find index db h in (db, h', OutModel m)
  | All =>
      let '(h', ms) := Database.all db h in (db, h', OutModels ms)
  | Count scopedSize => (db, h, OutNumber (Database.count scopedSize db))
  | Where col v => (Database.where_ col v db h, h, OutThis)
  | Get =>
      let '(db', h', ms) := Database.get db h in (db', h', OutModels ms)
  | First b =>
      let '(db', h', m) := Database.first b db h in (db', h', OutModel m)
  | Last b =>
      let '(db', h', m) := Database.last b db h in (db', h', OutModel m)
  | Update col v =>
      match Database.update col v db h with
      | (h', Return db') => (db', h', OutThis)
      | (h', Throw e) => (db, h', OutError e)
      end
  | Delete =>
      let '(db', n) := Database.delete db in (db', h, OutNumber n)
  | Truncate => (Database.truncate db, h, OutVoid)
  end.

Definition step (s : Database.t * heap) (o : op) : Database.t * heap := (exec o s).1.

Definition run (ops : list op) (s : Database.t * heap) : Database.t * heap :=
  foldl step s ops.

(** The outputs of a program, one per operation. *)
Fixpoint outputs (ops : list op) (s : Database.t * heap) : list output :=
  match ops with
  | [] => []
  | o :: rest => (exec o s).2 :: outputs rest (step s o)
  end.

(** ** Vocabulary of the specification *)

(** The entries of a map whose field [col] is strictly equal to [v]: what
    one full scan selects. *)
Definition matches (col : string) (v : value) (h : heap)
    (recs : list (Z * loc)) : list (Z * loc) :=
  filter (λ e, strict_eq (get_field h e.2 col) v = true) recs.

(** Every identity of the query scope is a key of the record collection. *)
Definition scope_in_records (db : Database.t) : Prop :=
  ∀ k, k ∈ JSMap.keys (Database.lastQuery db) →
       k ∈ JSMap.keys (Database.records db).

(** What holds of the two maps and the counter in every state the public
    operations build: keys are distinct, an entry of the scope is the entry
    of the collection under the same identity (the same object), and the
    identities in use are positive and at most the counter. *)
Record consistent (db : Database.t) : Prop := {
  records_wf : JSMap.wf (Database.records db);
  lastQuery_wf : JSMap.wf (Database.lastQuery db);
  scope_shares : ∀ k l,
    JSMap.get k (Database.lastQuery db) = Some l →
    JSMap.get k (Database.records db) = Some l;
  ids_assigned : ∀ k,
    k ∈ JSMap.keys (Database.records db) → 0 < k ≤ Database.autoincrement db;
  counter_nonneg : 0 ≤ Database.autoincrement db
}.

(** The operations that hand out models of stored records. *)
Definition is_retrieval (o : op) : bool :=
  match o with
  | Find _ | All | Get | First _ | Last _ => true
  | _ => false
  end.

Definition models_of (out : output) : list Model.t :=
  match out with
  | OutModel (Some m) => [m]
  | OutModels ms => ms
  | _ => []
  end.

(** ** Sample data *)

(** A book has a number of pages. *)
Definition book (pages : Z) : obj := {["pages" := VNum pages]}.

Definition library : heap := [book 10; book 20; book 30].

(** The three books, inserted in turn into a new database. *)
Definition three_books : Database.t * heap :=
  run [Insert 0%nat; Insert 1%nat; Insert 2%nat] (Database.new, library).

(** * Properties *)

(** ** Ordered maps *)

Module JSMapFacts.
Import JSMap.
Section ordered_map.
Context {V : Type}.
Implicit Types (m : list (Z * V)) (k : Z) (v : V).

Lemma get_None k m : get k m = None ↔ k ∉ keys m.
Proof.
  induction m as [|[k' v] m IH]; simpl.
  - split; [intros _; apply not_elem_of_nil | done].
  - case_decide as Hk.
    + subst k'. split; [done | intros []; left].
    + rewrite IH, not_elem_of_cons. split; [auto | by intros [_ ?]].
Qed.

Lemma get_is_Some k m : is_Some (get k m) ↔ k ∈ keys m.
Proof.
  rewrite <- not_eq_None_Some, get_None.
  split; [apply dec_stable | auto].
Qed.

Lemma get_Some_elem k v m : get k m = Some v → (k, v) ∈ m.
Proof.
  induction m as [|[k' v'] m IH]; simpl; [done|].
  case_decide; [intros [= ->]; subst; left | intros; right; auto].
Qed.

Lemma elem_get k v m : wf m → (k, v) ∈ m → get k m = Some v.
Proof.
  unfold wf, keys. induction m as [|[k' v'] m IH]; simpl.
  - intros _ H. by apply elem_of_nil in H.
  - rewrite NoDup_cons. intros [Hk' Hm] [[= -> ->]|Hin]%elem_of_cons.
    + by rewrite decide_True.
    + rewrite decide_False; [auto|].
      intros ->. apply Hk'. apply list_elem_of_fmap. by exists (k, v).
Qed.

Lemma has_true k m : has k m = true ↔ k ∈ keys m.
Proof.
  unfold has. rewrite <- get_is_Some.
  destruct (get k m) as [v|].
  - split; eauto.
  - split; [done | by intros [? ?]].
Qed.

Lemma has_false k m : has k m = false ↔ k ∉ keys m.
Proof.
  unfold has. rewrite <- get_None. by destruct (get k m).
Qed.

Lemma get_set k v k' m :
  get k' (set k v m) = if decide (k = k') then Some v else get k' m.
Proof.
  induction m as [|[k0 v0] m IH]; simpl.
  - done.
  - destruct (decide (k0 = k)) as [->|Hne]; simpl.
    + by repeat case_decide.
    + rewrite IH. repeat case_decide; congruence.
Qed.

Lemma get_set_eq k v m : get k (set k v m) = Some v.
Proof. rewrite get_set. by rewrite decide_True. Qed.

Lemma get_set_ne k v k' m : k ≠ k' → get k' (set k v m) = get k' m.
Proof. intros. rewrite get_set. by rewrite decide_False. Qed.

Lemma keys_set k v m :
  keys (set k v m) = if has k m then keys m else keys m ++ [k].
Proof.
  unfold has, keys. induction m as [|[k0 v0] m IH]; [done|].
  cbn [set get]. destruct (decide (k0 = k)) as [->|Hne]; [done|].
  rewrite !fmap_cons, IH. by destruct (get k m).
Qed.

Lemma elem_of_keys_set k v k' m :
  k' ∈ keys (set k v m) ↔ k' = k ∨ k' ∈ keys m.
Proof.
  rewrite <- !get_is_Some, get_set. case_decide; subst.
  - split; [auto | eauto].
  - split; [auto | intros [|]; congruence].
Qed.

Lemma wf_set k v m : wf m → wf (set k v m).
Proof.
  unfold wf. rewrite keys_set. destruct (has k m) eqn:Hh; [done|].
  intros Hm. apply NoDup_app. split_and!; [done | | apply NoDup_singleton].
  intros x Hx ->%list_elem_of_singleton. by apply has_false in Hh.
Qed.

Lemma size_set_new k v m : has k m = false → size (set k v m) = S (size m).
Proof.
  unfold size. intros Hh.
  rewrite <- (length_fmap fst (set k v m)), <- (length_fmap fst m).
  fold (keys (set k v m)) (keys m).
  rewrite keys_set, Hh, length_app. simpl. lia.
Qed.

Lemma keys_remove k m : keys (remove k m) = filter (λ k', k' ≠ k) (keys m).
Proof.
  unfold keys, remove. induction m as [|[k0 v0] m IH]; [done|].
  rewrite fmap_cons, !filter_cons. simpl.
  case_decide; [rewrite fmap_cons|]; by rewrite IH.
Qed.

Lemma elem_of_keys_remove k k' m :
  k' ∈ keys (remove k m) ↔ k' ≠ k ∧ k' ∈ keys m.
Proof. by rewrite keys_remove, list_elem_of_filter. Qed.

Lemma get_remove k k' m :
  get k' (remove k m) = if decide (k = k') then None else get k' m.
Proof.
  unfold remove. induction m as [|[k0 v0] m IH]; simpl.
  - by case_decide.
  - rewrite filter_cons. simpl. destruct (decide (k0 ≠ k)) as [Hne|Heq]; simpl.
    + rewrite IH. repeat case_decide; congruence.
    + apply dec_stable in Heq. subst k0. rewrite IH.
      repeat case_decide; congruence.
Qed.

Lemma wf_remove k m : wf m → wf (remove k m).
Proof. unfold wf. rewrite keys_remove. apply NoDup_filter. Qed.

Lemma remove_absent k m : k ∉ keys m → remove k m = m.
Proof.
  unfold remove, keys. induction m as [|[k0 v0] m IH]; [done|].
  rewrite fmap_cons, not_elem_of_cons, filter_cons. simpl.
  intros [Hne Hm]. rewrite decide_True by done. by rewrite IH.
Qed.

Lemma size_remove_present k m :
  wf m → k ∈ keys m → S (size (remove k m)) = size m.
Proof.
  unfold wf, size, remove, keys. induction m as [|[k0 v0] m IH]; simpl.
  - intros _ H. by apply elem_of_nil in H.
  - rewrite NoDup_cons, filter_cons. simpl.
    intros [Hk0 Hm] [->|Hin]%elem_of_cons.
    + rewrite decide_False by auto.
      fold (remove k0 m). by rewrite remove_absent.
    + rewrite decide_True by (intros ->; done).
      simpl. by rewrite IH.
Qed.

Lemma wf_nil : wf ([] : list (Z * V)).
Proof. apply NoDup_nil_2. Qed.

Lemma set_id k v m : get k m = Some v → set k v m = m.
Proof.
  induction m as [|[k0 v0] m IH]; simpl; [done|].
  case_decide; [intros [= ->]; by subst | intros; by rewrite IH].
Qed.

Lemma set_new k v m : k ∉ keys m → set k v m = m ++ [(k, v)].
Proof.
  unfold keys. induction m as [|[k0 v0] m IH]; [done|].
  rewrite fmap_cons, not_elem_of_cons. simpl. intros [Hne Hm].
  rewrite decide_False by done. by rewrite IH.
Qed.

Lemma get_app k m1 m2 :
  get k (m1 ++ m2) = match get k m1 with Some v => Some v | None => get k m2 end.
Proof.
  induction m1 as [|[k0 v0] m1 IH]; simpl; [done|]. by case_decide.
Qed.

Lemma keys_app m1 m2 : keys (m1 ++ m2) = keys m1 ++ keys m2.
Proof. apply fmap_app. Qed.

Lemma elem_keys k v m : (k, v) ∈ m → k ∈ keys m.
Proof. intros Hin. apply list_elem_of_fmap. by exists (k, v). Qed.

Lemma get_Some_iff k v m : wf m → get k m = Some v ↔ (k, v) ∈ m.
Proof. intros Hm. split; [apply get_Some_elem | by apply elem_get]. Qed.

Section filter.
Context (P : Z * V → Prop) `{!∀ e, Decision (P e)}.

Lemma keys_filter_elem k m : k ∈ keys (filter P m) → k ∈ keys m.
Proof.
  unfold keys. rewrite !list_elem_of_fmap.
  intros (e & -> & [_ He]%list_elem_of_filter). eauto.
Qed.

Lemma wf_filter m : wf m → wf (filter P m).
Proof.
  unfold wf. induction m as [|[k0 v0] m IH]; [done|].
  unfold keys in *. rewrite fmap_cons, NoDup_cons, filter_cons. simpl.
  intros [Hk0 Hm]. case_decide; [|auto].
  rewrite fmap_cons, NoDup_cons. simpl. split; [|auto].
  intros Hin. by apply keys_filter_elem in Hin.
Qed.

Lemma elem_of_filter_wf k v m :
  wf m → get k (filter P m) = Some v ↔ get k m = Some v ∧ P (k, v).
Proof.
  intros Hm. rewrite !get_Some_iff by auto using wf_filter.
  rewrite list_elem_of_filter. tauto.
Qed.

Lemma key_of_filter_wf k v m :
  wf m → (k, v) ∈ m → k ∈ keys (filter P m) ↔ P (k, v).
Proof.
  intros Hm Hin. rewrite <- get_is_Some. split.
  - intros [v' [Hg HP]%elem_of_filter_wf]; [|done].
    apply elem_get in Hin; [|done]. congruence.
  - intros HP. exists v. apply elem_of_filter_wf; [done|].
    split; [by apply elem_get | done].
Qed.

End filter.

Lemma get_filter_key (Q : Z → Prop) `{!∀ k, Decision (Q k)} k m :
  get k (filter (λ e, Q e.1) m) = if decide (Q k) then get k m else None.
Proof.
  induction m as [|[k0 v0] m IH]; simpl.
  - by case_decide.
  - rewrite filter_cons. simpl.
    destruct (decide (Q k0)) as [HQ|HQ]; simpl; rewrite IH;
      repeat case_decide; subst; done.
Qed.

Lemma get_filter_not_in (ks : list Z) k m :
  get k (filter (λ e, e.1 ∉ ks) m) = if decide (k ∈ ks) then None else get k m.
Proof.
  induction m as [|[k0 v0] m IH]; simpl.
  - by case_decide.
  - rewrite filter_cons. simpl.
    destruct (decide (k0 ∉ ks)) as [Hn|Hn]; simpl; rewrite IH;
      repeat case_decide; subst; done.
Qed.

Lemma filter_ext_elem {A} (P Q : A → Prop)
    `{!∀ x, Decision (P x), !∀ x, Decision (Q x)} (l : list A) :
  (∀ x, x ∈ l → P x ↔ Q x) → filter P l = filter Q l.
Proof.
  induction l as [|x l IH]; [done|]. intros Hext.
  rewrite !filter_cons, IH by (intros; apply Hext; by right).
  assert (P x ↔ Q x) as Hx by (apply Hext; by left).
  repeat case_decide; tauto || done.
Qed.

Lemma filter_all {A} (P : A → Prop) `{!∀ x, Decision (P x)} (l : list A) :
  (∀ x, P x) → filter P l = l.
Proof.
  intros HP. induction l as [|x l IH]; [done|].
  rewrite filter_cons, decide_True by done. by rewrite IH.
Qed.

Lemma length_filter_split {A} (P : A → Prop) `{!∀ x, Decision (P x)}
    (l : list A) :
  (length (filter P l) + length (filter (λ x, ¬ P x) l) = length l)%nat.
Proof.
  induction l as [|x l IH]; [done|].
  rewrite !filter_cons. destruct (decide (P x)).
  - rewrite decide_False by auto. simpl. lia.
  - rewrite decide_True by auto. simpl. lia.
Qed.

End ordered_map.
End JSMapFacts.

(** ** The store *)

Section store.
Implicit Types (h : heap) (l : loc) (col : string) (v : value).

Lemma length_set_field l col v h : length (set_field l col v h) = length h.
Proof. apply length_alter. Qed.

Lemma lookup_set_field_ne l l' col v h :
  l ≠ l' → set_field l col v h !! l' = h !! l'.
Proof. intros. by apply list_lookup_alter_ne. Qed.

Lemma get_field_set_field_eq l col v h :
  (l < length h)%nat → get_field (set_field l col v h) l col = v.
Proof.
  intros [o Ho]%lookup_lt_is_Some_2.
  unfold get_field, deref, set_field.
  rewrite list_lookup_alter_eq, Ho. simpl. by rewrite lookup_insert_eq.
Qed.

Lemma get_field_set_field_other l l' col col' v h :
  col ≠ col' → get_field (set_field l col v h) l' col' = get_field h l' col'.
Proof.
  intros Hc. unfold get_field, deref, set_field.
  destruct (decide (l = l')) as [<-|Hl].
  - rewrite list_lookup_alter_eq. destruct (h !! l) as [o|]; simpl.
    + by rewrite lookup_insert_ne.
    + reflexivity.
  - by rewrite list_lookup_alter_ne.
Qed.

(** A write of [v] to [col] leaves every [col] that already reads [v]. *)
Lemma get_field_set_field_keep l l' col v h :
  get_field h l' col = v → get_field (set_field l col v h) l' col = v.
Proof.
  intros Hv. destruct (decide (l = l')) as [<-|Hl].
  - destruct (h !! l) as [o|] eqn:Ho.
    + apply get_field_set_field_eq. apply lookup_lt_is_Some_1. eauto.
    + revert Hv. unfold get_field, deref, set_field.
      by rewrite list_lookup_alter_eq, Ho.
  - revert Hv. unfold get_field, deref, set_field.
    by rewrite list_lookup_alter_ne.
Qed.

Lemma refs_valid_mono h h' (m : list (Z * loc)) :
  (length h ≤ length h')%nat → refs_valid h m → refs_valid h' m.
Proof. intros Hle Hm k l Hin. specialize (Hm k l Hin). lia. Qed.

End store.

(** ** Models built from the template *)

Section templates.
Import Database.
Implicit Types (h : heap) (l : loc) (db : Database.t).

Lemma createFromTemplate_unfold l id h :
  createFromTemplate l id h
  = (h ++ [deref h l ∪ {["id" := VNum id]}],
     Model.constructor (length h) (h ++ [deref h l ∪ {["id" := VNum id]}])).
Proof. reflexivity. Qed.

Lemma deref_app_l h ext l : (l < length h)%nat → deref (h ++ ext) l = deref h l.
Proof. intros Hl. unfold deref. by rewrite lookup_app_l. Qed.

Lemma deref_snoc h (o : obj) : deref (h ++ [o]) (length h) = o.
Proof. unfold deref. by rewrite list_lookup_middle. Qed.

(** The model is a fresh object: the copy of the record, with [id] set
    unless the record has an [id] of its own. *)
Lemma createFromTemplate_spec l id h h' m :
  createFromTemplate l id h = (h', m) →
  h' = h ++ [deref h l ∪ {["id" := VNum id]}]
  ∧ Model.definition m = length h
  ∧ deref h' (Model.definition m) = deref h l ∪ {["id" := VNum id]}
  ∧ Model.id m = default VUndefined ((deref h l ∪ {["id" := VNum id]}) !! "id").
Proof.
  rewrite createFromTemplate_unfold. intros [= <- <-]. simpl.
  split_and!; [done | done | apply deref_snoc |].
  unfold get_field. by rewrite deref_snoc.
Qed.

Lemma createFromTemplate_id l id h h' m :
  createFromTemplate l id h = (h', m) →
  deref h l !! "id" = None → Model.id m = VNum id.
Proof.
  intros (_ & _ & _ & ->)%createFromTemplate_spec Hid.
  by rewrite lookup_union_r, lookup_singleton_eq.
Qed.

Lemma forEach_push_spec entries h models h' ms :
  forEach_push entries h models = (h', ms) →
  ∃ ext new,
    h' = h ++ ext ∧ ms = models ++ new
    ∧ length new = length entries
    ∧ Forall (λ m, (length h ≤ Model.definition m)%nat) new.
Proof.
  revert h models. induction entries as [|[index record] rest IH];
    intros h models; simpl.
  - intros [= <- <-]. exists [], []. by rewrite !app_nil_r.
  - intros (ext & new & -> & -> & Hlen & Hall)%IH.
    eexists (_ :: ext), (_ :: new). rewrite <- !app_assoc. simpl.
    split_and!; [done | done | by rewrite Hlen |].
    constructor; [simpl; lia|].
    eapply Forall_impl; [exact Hall|]. intros m. simpl.
    rewrite length_app. simpl. lia.
Qed.

(** A retrieval leaves the record collection as it is, only extends the
    store, and hands out models of objects that did not exist before. *)
Lemma retrieval_extends o db h db' h' out :
  is_retrieval o = true →
  exec o (db, h) = (db', h', out) →
  records db' = records db
  ∧ ∃ ext, h' = h ++ ext
    ∧ Forall (λ m, (length h ≤ Model.definition m)%nat) (models_of out).
Proof.
  destruct o; try discriminate; intros _; simpl.
  - unfold find. destruct (JSMap.get index (records db)) as [l|].
    + intros [= <- <- <-]. split; [done|]. eexists [_]. split; [done|].
      simpl. by constructor.
    + intros [= <- <- <-]. split; [done|]. exists []. by rewrite app_nil_r.
  - unfold all. destruct (forEach_push _ _ _) as [h1 ms] eqn:E.
    intros [= <- <- <-]. split; [done|].
    apply forEach_push_spec in E as (ext & new & -> & -> & _ & Hall). eauto.
  - unfold get. destruct (forEach_push _ _ _) as [h1 ms] eqn:E.
    intros [= <- <- <-]. split; [done|].
    apply forEach_push_spec in E as (ext & new & -> & -> & _ & Hall). eauto.
  - unfold first.
    destruct (switchRecordsRetrieval _ db) as [|[index record] rest].
    + intros [= <- <- <-]. split; [done|]. exists []. by rewrite app_nil_r.
    + intros [= <- <- <-]. split; [done|]. eexists [_]. split; [done|].
      simpl. by constructor.
  - unfold last.
    destruct (JSMap.get _ (switchRecordsRetrieval _ db)) as [l|].
    + intros [= <- <- <-]. split; [done|]. eexists [_]. split; [done|].
      simpl. by constructor.
    + intros [= <- <- <-]. split; [done|]. exists []. by rewrite app_nil_r.
Qed.

(** A model's setter writes to the model's own object only. *)
Lemma set_prop_frame m key v h m' h' l :
  Model.set_prop m key v h = (m', h') →
  l ≠ Model.definition m → h' !! l = h !! l.
Proof.
  unfold Model.set_prop. intros E Hl.
  repeat case_decide; injection E as <- <-; try done.
  by rewrite lookup_set_field_ne.
Qed.

End templates.

(** ** The loops of [where], [delete] and [update] *)

Section loops.
Import Database JSMap JSMapFacts.
Implicit Types (h : heap) (l : loc) (col : string) (v : value).
Implicit Types (recs entries q : list (Z * loc)) (k : Z).

(** The scan stores the matching entries one after the other. *)
Lemma where_loop_foldl col v h recs q :
  where_loop col v h recs q
  = foldl (λ q e, set e.1 e.2 q) q (matches col v h recs).
Proof.
  revert q. induction recs as [|[k l] recs IH]; intros q; [done|].
  unfold matches. rewrite filter_cons. simpl.
  destruct (strict_eq (get_field h l col) v) eqn:E.
  - rewrite decide_True by done. simpl. apply IH.
  - rewrite decide_False by done. apply IH.
Qed.

Lemma foldl_set_get q (m : list (Z * loc)) k :
  wf m →
  get k (foldl (λ q e, set e.1 e.2 q) q m)
  = match get k m with Some l => Some l | None => get k q end.
Proof.
  unfold wf, keys. revert q. induction m as [|[k0 l0] m IH]; intros q; [done|].
  rewrite fmap_cons, NoDup_cons. simpl. intros [Hk0 Hm].
  rewrite IH by done. destruct (decide (k0 = k)) as [->|Hne].
  - apply get_None in Hk0. by rewrite Hk0, get_set_eq.
  - by rewrite get_set_ne.
Qed.

Lemma foldl_set_union q (m : list (Z * loc)) :
  wf m →
  (∀ k l l', (k, l) ∈ m → get k q = Some l' → l' = l) →
  foldl (λ q e, set e.1 e.2 q) q m = q ++ filter (λ e, e.1 ∉ keys q) m.
Proof.
  unfold wf. revert q. induction m as [|[k0 l0] m IH]; intros q.
  - intros _ _. by rewrite app_nil_r.
  - unfold keys at 1. rewrite fmap_cons, NoDup_cons. simpl.
    intros [Hk0 Hm] Hq. rewrite filter_cons. simpl.
    destruct (get k0 q) as [l'|] eqn:Hg.
    + assert (l' = l0) as -> by (eapply Hq; [left | done]).
      rewrite set_id by done.
      rewrite decide_False by (intros Hn; apply Hn, get_is_Some; eauto).
      apply IH; [done|]. intros k l l1 Hin. apply Hq. by right.
    + rewrite decide_True by (by apply get_None).
      rewrite set_new by (by apply get_None).
      rewrite IH; [| done |].
      * rewrite <- app_assoc. simpl. do 2 f_equal.
        apply filter_ext_elem. intros [k l] Hin. simpl.
        rewrite keys_app, not_elem_of_app. unfold keys at 2. simpl.
        rewrite not_elem_of_cons. split; [tauto|]. intros Hn.
        split_and!; [done | | apply not_elem_of_nil].
        intros ->. apply Hk0. by eapply elem_keys.
      * intros k l l1 Hin. rewrite get_app.
        destruct (get k q) as [l2|] eqn:Hg2.
        -- intros [= <-]. eapply Hq; [by right | done].
        -- simpl. case_decide; [|done]. subst k0.
           exfalso. apply Hk0. by eapply elem_keys.
Qed.

Lemma where_loop_get col v h recs q k :
  wf recs →
  get k (where_loop col v h recs q)
  = match get k (matches col v h recs) with
    | Some l => Some l
    | None => get k q
    end.
Proof.
  intros Hr. rewrite where_loop_foldl. apply foldl_set_get.
  by apply wf_filter.
Qed.

Lemma where_loop_keys col v h recs q k :
  wf recs →
  k ∈ keys (where_loop col v h recs q)
  ↔ k ∈ keys q ∨ k ∈ keys (matches col v h recs).
Proof.
  intros Hr. rewrite <- !get_is_Some, where_loop_get by done.
  destruct (get k (matches col v h recs)) as [l|].
  - split; [eauto | eauto].
  - split; [auto | intros [|[? [=]]]; done].
Qed.

Lemma where_loop_wf col v h recs q : wf q → wf (where_loop col v h recs q).
Proof.
  revert q. induction recs as [|[k l] recs IH]; intros q Hq; [done|].
  simpl. apply IH. destruct (strict_eq _ _); [by apply wf_set | done].
Qed.

Lemma where_loop_empty col v h recs :
  wf recs → where_loop col v h recs [] = matches col v h recs.
Proof.
  intros Hr. rewrite where_loop_foldl, foldl_set_union.
  - simpl. apply filter_all. intros e. apply not_elem_of_nil.
  - by apply wf_filter.
  - intros k l l' _ [=].
Qed.

(** [delete] removes the keys of the scope and counts the removals. *)
Lemma delete_loop_spec entries recs n recs' n' :
  delete_loop entries recs n = (recs', n') →
  recs' = filter (λ e, e.1 ∉ keys entries) recs
  ∧ (wf recs → (n' + size recs' = n + size recs)%nat).
Proof.
  revert recs n. induction entries as [|[k l] rest IH]; intros recs n; simpl.
  - intros [= <- <-]. split; [|done].
    symmetry. apply filter_all. intros e. apply not_elem_of_nil.
  - intros [-> Hn]%IH. split.
    + unfold remove. rewrite list_filter_filter. apply list_filter_iff.
      intros e. unfold keys. rewrite not_elem_of_cons. tauto.
    + intros Hr. specialize (Hn (wf_remove _ _ Hr)).
      destruct (has k recs) eqn:Hh.
      * apply has_true in Hh. pose proof (size_remove_present _ _ Hr Hh). lia.
      * apply has_false in Hh. rewrite remove_absent in Hn |- * by done. lia.
Qed.

End loops.

Section update_loop.
Import Database JSMap JSMapFacts.
Implicit Types (h : heap) (l : loc) (col : string) (v : value).
Implicit Types (recs entries : list (Z * loc)) (k : Z).

Lemma update_loop_length col v recs entries h h' r :
  update_loop col v recs entries h = (h', r) → length h' = length h.
Proof.
  revert h. induction entries as [|[k l] rest IH]; intros h; simpl.
  - by intros [= <- <-].
  - destruct (get k recs) as [d|]; [|by intros [= <- <-]].
    intros ->%IH. by rewrite !length_set_field.
Qed.

(** No identity of the scope is missing: the loop runs to its end. *)
Lemma update_loop_complete col v recs entries h :
  (∀ k, k ∈ keys entries → k ∈ keys recs) →
  ∃ h', update_loop col v recs entries h = (h', None).
Proof.
  revert h. induction entries as [|[k l] rest IH]; intros h Hin; simpl.
  - eauto.
  - destruct (get k recs) as [d|] eqn:Hg.
    + apply IH. intros k' Hk'. apply Hin. unfold keys. simpl. by right.
    + apply get_None in Hg. exfalso. apply Hg, Hin. unfold keys. simpl. left.
Qed.

(** An identity of the scope is missing: the loop throws, at the first one. *)
Lemma update_loop_stale col v recs entries h k :
  k ∈ keys entries → k ∉ keys recs →
  ∃ h' k', update_loop col v recs entries h = (h', Some (RecordDidNotExist k'))
           ∧ k' ∈ keys entries ∧ k' ∉ keys recs.
Proof.
  revert h. induction entries as [|[k0 l0] rest IH]; intros h; simpl.
  - intros Hk. by apply elem_of_nil in Hk.
  - unfold keys at 1. simpl. intros Hk Hn.
    destruct (get k0 recs) as [d|] eqn:Hg.
    + apply elem_of_cons in Hk as [->|Hk].
      * exfalso. apply Hn, get_is_Some. eauto.
      * destruct (IH (set_field d col v (set_field l0 col v h)) Hk Hn)
          as (h' & k' & E & Hk' & Hn').
        exists h', k'. split_and!; [done | | done].
        unfold keys. simpl. by right.
    + exists h, k0. split_and!; [done | | by apply get_None].
      unfold keys. simpl. left.
Qed.

Lemma update_loop_keep col v recs entries h h' r l :
  update_loop col v recs entries h = (h', r) →
  get_field h l col = v → get_field h' l col = v.
Proof.
  revert h. induction entries as [|[k0 l0] rest IH]; intros h; simpl.
  - by intros [= <- <-].
  - destruct (get k0 recs) as [d|]; [|by intros [= <- <-]].
    intros E Hv. eapply IH; [exact E|].
    by do 2 apply get_field_set_field_keep.
Qed.

Lemma update_loop_other col v recs entries h h' r l c :
  update_loop col v recs entries h = (h', r) →
  col ≠ c → get_field h' l c = get_field h l c.
Proof.
  revert h. induction entries as [|[k0 l0] rest IH]; intros h; simpl.
  - by intros [= <- <-].
  - destruct (get k0 recs) as [d|]; [|by intros [= <- <-]].
    intros E Hc. rewrite (IH _ E Hc).
    by rewrite !get_field_set_field_other.
Qed.

(** After a complete run, [col] reads [v] through every entry of the scope
    and through the entry of the collection under the same identity. *)
Lemma update_loop_writes col v recs entries h h' :
  update_loop col v recs entries h = (h', None) →
  refs_valid h entries → refs_valid h recs →
  ∀ k l, (k, l) ∈ entries →
    get_field h' l col = v
    ∧ ∃ l', get k recs = Some l' ∧ get_field h' l' col = v.
Proof.
  revert h. induction entries as [|[k0 l0] rest IH]; intros h; simpl.
  - intros _ _ _ k l Hin. by apply elem_of_nil in Hin.
  - destruct (get k0 recs) as [d|] eqn:Hg; [|done].
    intros E Hve Hvr k l [[= -> ->]|Hin]%elem_of_cons.
    + assert (l0 < length h)%nat as Hl0 by (eapply Hve; left).
      assert (d < length h)%nat as Hd
        by (eapply Hvr; by apply get_Some_elem).
      split.
      * apply (update_loop_keep _ _ _ _ _ _ _ _ E).
        apply (get_field_set_field_keep d l0 col v).
        exact (get_field_set_field_eq l0 col v h Hl0).
      * exists d. split; [done|].
        apply (update_loop_keep _ _ _ _ _ _ _ _ E).
        apply (get_field_set_field_eq d col v).
        by rewrite length_set_field.
    + eapply (IH _ E); [| | done].
      * apply (refs_valid_mono h); [by rewrite !length_set_field|].
        intros k' l' Hin'. apply (Hve k'). by right.
      * apply (refs_valid_mono h); [by rewrite !length_set_field | done].
Qed.

End update_loop.

(** ** What every reachable state satisfies *)

Section invariant.
Import Database JSMap JSMapFacts.
Implicit Types (h : heap) (db : Database.t) (o : op).

Lemma consistent_new : consistent new.
Proof.
  split; simpl; try apply wf_nil; try done.
  intros k Hk. by apply elem_of_nil in Hk.
Qed.

Lemma consistent_clear_lastQuery db :
  consistent db → consistent (clear_lastQuery db).
Proof.
  intros [Hr Hq Hs Hi Hc]. split; simpl; try done. apply wf_nil.
Qed.

Lemma consistent_insert l db h :
  consistent db → consistent (insert l db h).1.1.
Proof.
  intros [Hr Hq Hs Hi Hc]. split; simpl.
  - by apply wf_set.
  - done.
  - intros k l' Hg. rewrite get_set_ne; [auto|].
    intros <-. apply Hs in Hg.
    assert (autoincrement db + 1 ∈ keys (records db)) as Hin
      by (apply get_is_Some; eauto).
    apply Hi in Hin. lia.
  - intros k [->|Hin%Hi]%elem_of_keys_set; lia.
  - lia.
Qed.

Lemma consistent_whereIndexed v db :
  consistent db → consistent (whereIndexed v db).
Proof.
  intros Hdb. destruct v as [| | |n| | |]; try done. simpl.
  destruct (get n (records db)) as [l|] eqn:Hg; [|done].
  destruct Hdb as [Hr Hq Hs Hi Hc]. split; simpl; try done.
  - by apply wf_set.
  - intros k l'. rewrite get_set. case_decide; [|auto].
    subst k. by intros [= <-].
Qed.

Lemma consistent_where col v db h :
  consistent db → consistent (where_ col v db h).
Proof.
  intros Hdb. unfold where_. case_decide; [by apply consistent_whereIndexed|].
  destruct Hdb as [Hr Hq Hs Hi Hc]. split; simpl; try done.
  - by apply where_loop_wf.
  - intros k l. rewrite where_loop_get by done.
    destruct (get k (matches col v h (records db))) as [l'|] eqn:Hg; [|auto].
    intros [= <-]. unfold matches in Hg.
    by apply elem_of_filter_wf in Hg as [? _].
Qed.

Lemma consistent_delete db : consistent db → consistent (Database.delete db).1.
Proof.
  intros [Hr Hq Hs Hi Hc]. unfold Database.delete.
  destruct (delete_loop _ _ _) as [recs n] eqn:E.
  apply delete_loop_spec in E as [-> _]. split; simpl; try done.
  - by apply wf_filter.
  - apply wf_nil.
  - intros k Hk. apply keys_filter_elem in Hk. auto.
Qed.

Lemma consistent_truncate db : consistent db → consistent (truncate db).
Proof.
  intros [Hr Hq Hs Hi Hc]. split; simpl; try apply wf_nil; try done.
  intros k Hk. by apply elem_of_nil in Hk.
Qed.

Lemma consistent_exec o db h : consistent db → consistent (exec o (db, h)).1.1.
Proof.
  intros Hdb. destruct o; simpl.
  - by apply (consistent_insert definition db h).
  - by destruct (find index db h).
  - by destruct (all db h).
  - done.
  - by apply consistent_where.
  - unfold Database.get. destruct (forEach_push _ _ _).
    by apply consistent_clear_lastQuery.
  - unfold first. destruct (switchRecordsRetrieval _ _) as [|[]]; [done|].
    by apply consistent_clear_lastQuery.
  - unfold last. destruct (JSMap.get _ _); [|done].
    by apply consistent_clear_lastQuery.
  - unfold update. by destruct (update_loop _ _ _ _ _) as [h' [e|]].
  - pose proof (consistent_delete db Hdb). by destruct (Database.delete db).
  - by apply consistent_truncate.
Qed.

Lemma run_snoc ops o s : run (ops ++ [o]) s = step (run ops s) o.
Proof. unfold run. by rewrite foldl_app. Qed.

Lemma consistent_run ops db h :
  consistent db → consistent (run ops (db, h)).1.
Proof.
  intros Hdb. induction ops as [|o ops IH] using rev_ind; [done|].
  rewrite run_snoc. destruct (run ops (db, h)) as [db1 h1].
  apply (consistent_exec o db1 h1 IH).
Qed.

Lemma consistent_scope_in_records db : consistent db → scope_in_records db.
Proof.
  intros [Hr Hq Hs Hi Hc] k [l Hl]%get_is_Some.
  apply get_is_Some. eauto.
Qed.

End invariant.

(** * The claims *)

Section filtering.
Import Database JSMap JSMapFacts.
Implicit Types (h : heap) (db : Database.t) (k n : Z).

(** C1, as the spec has it, fails: with identity 1 in the scope,
    [where("id", 2)] does not leave the single entry 2; it leaves both. *)
Lemma where_id_replaces_scope_counterexample :
  let '(db, h) :=
    run [Insert 0%nat; Insert 1%nat; Where "id" (VNum 1)] (Database.new, library) in
  lastQuery db = [(1, 0%nat)]
  ∧ get 2 (records db) = Some 1%nat
  ∧ lastQuery (where_ "id" (VNum 2) db h) = [(1, 0%nat); (2, 1%nat)]
  ∧ lastQuery (where_ "id" (VNum 2) db h) ≠ [(2, 1%nat)].
Proof. vm_compute. by split_and!. Qed.

(** C1, amended: [where("id", v)] is [whereIndexed(v)]: one lookup of [v]
    in the record collection and no scan.  When the record is there, it is
    stored in the query scope under [v], and every entry the scope had under
    another identity stays; when it is not there, or [v] is not a number, the
    scope is left as it was.  The record collection and the counter do not
    change. *)
Theorem where_id_adds_to_scope db h (v : value) :
  let db' := where_ "id" v db h in
  db' = whereIndexed v db
  ∧ records db' = records db
  ∧ autoincrement db' = autoincrement db
  ∧ (∀ k, k ∈ keys (lastQuery db) → k ∈ keys (lastQuery db'))
  ∧ match v with
    | VNum n =>
        ∀ k, get k (lastQuery db')
             = if decide (k = n)
               then match get n (records db) with
                    | Some l => Some l
                    | None => get n (lastQuery db)
                    end
               else get k (lastQuery db)
    | _ => db' = db
    end.
Proof.
  simpl. unfold where_. rewrite decide_True by done.
  destruct v as [| | |n| | |]; try done. simpl.
  destruct (get n (records db)) as [l|] eqn:Hg; simpl.
  - split_and!; try done.
    + intros k Hk. apply elem_of_keys_set. by right.
    + intros k. rewrite get_set. repeat case_decide; congruence.
  - split_and!; try done. intros k. case_decide; congruence.
Qed.

(** C2 at the failing input: two books, [where("pages", 10)] selects the
    first, and [last()] looks for identity 2 in the scope, finds nothing and
    returns before the scope is cleared. *)
Theorem last_miss_keeps_scope :
  let '(db, h) :=
    run [Insert 0%nat; Insert 1%nat; Where "pages" (VNum 10)]
        (Database.new, library) in
  let '(db', h', r) := last true db h in
  r = None ∧ lastQuery db' = [(1, 0%nat)] ∧ count true db' = 1%nat.
Proof. vm_compute. by split_and!. Qed.

(** What does hold of [first]: whenever the scope is within the record
    collection, as it is in every reachable state, the scope is empty
    afterwards, model or no model. *)
Lemma first_clears_scope b db h :
  scope_in_records db → lastQuery (first b db h).1.1 = [].
Proof.
  intros Hs. unfold first.
  destruct (switchRecordsRetrieval b db) as [|[k l] rest] eqn:E; [|done].
  simpl. destruct b; simpl in E; [done|].
  destruct (lastQuery db) as [|[k l] q] eqn:Eq; [done|].
  specialize (Hs k). rewrite Eq, E in Hs.
  exfalso. eapply not_elem_of_nil, Hs. unfold keys. simpl. left.
Qed.

(** And of [last]: the scope is cleared when a model is returned. *)
Lemma last_hit_clears_scope b db h :
  is_Some (last b db h).2 → lastQuery (last b db h).1.1 = [].
Proof.
  unfold last. destruct (get _ _); [done|]. simpl. by intros [? ?].
Qed.

(** C3: two [where] calls on columns other than [id] scan the whole record
    collection each, and the scope accumulates: the collection is untouched,
    an identity is in the resulting scope exactly when it was in the scope
    before or is matched by one of the two calls, every match is in the scope
    with its record, and from an empty scope the result is the matches of the
    first call followed by the further matches of the second. *)
Theorem where_where_accumulates c1 v1 c2 v2 db h :
  c1 ≠ "id" → c2 ≠ "id" → wf (records db) →
  let db2 := where_ c2 v2 (where_ c1 v1 db h) h in
  let m1 := matches c1 v1 h (records db) in
  let m2 := matches c2 v2 h (records db) in
  records db2 = records db
  ∧ (∀ k, k ∈ keys (lastQuery db2)
          ↔ k ∈ keys (lastQuery db) ∨ k ∈ keys m1 ∨ k ∈ keys m2)
  ∧ (∀ k l, (k, l) ∈ m1 ∨ (k, l) ∈ m2 → get k (lastQuery db2) = Some l)
  ∧ (lastQuery db = [] →
     lastQuery db2 = m1 ++ filter (λ e, e.1 ∉ keys m1) m2).
Proof.
  intros H1 H2 Hr. unfold where_. rewrite !decide_False by done. simpl.
  split_and!.
  - done.
  - intros k. rewrite !where_loop_keys by done. tauto.
  - intros k l Hin. rewrite !where_loop_get by done.
    assert (wf (matches c1 v1 h (records db))) as Hw1 by by apply wf_filter.
    assert (wf (matches c2 v2 h (records db))) as Hw2 by by apply wf_filter.
    destruct (get k (matches c2 v2 h (records db))) as [l2|] eqn:Hg2.
    + apply get_Some_elem, list_elem_of_filter in Hg2 as [_ Hg2].
      destruct Hin as [Hin|Hin];
        apply list_elem_of_filter in Hin as [_ Hin];
        apply (elem_get _ _ _ Hr) in Hin, Hg2; congruence.
    + destruct Hin as [Hin|Hin].
      * by rewrite (elem_get _ _ _ Hw1 Hin).
      * apply (elem_get _ _ _ Hw2) in Hin. congruence.
  - intros ->. rewrite where_loop_empty by done.
    rewrite where_loop_foldl. apply foldl_set_union; [by apply wf_filter|].
    intros k l l' [_ Hin]%list_elem_of_filter
      [_ Hin']%get_Some_elem%list_elem_of_filter.
    apply (elem_get _ _ _ Hr) in Hin, Hin'. congruence.
Qed.

End filtering.

(** Tactics for the side conditions of the examples: a concrete map has
    distinct keys, and its references point into a concrete store. *)
Lemma refs_valid_Forall (h : heap) (m : list (Z * loc)) :
  Forall (λ e, (e.2 < length h)%nat) m → refs_valid h m.
Proof.
  intros Hall k l Hin. rewrite Forall_forall in Hall. apply (Hall (k, l) Hin).
Qed.

Ltac solve_wf :=
  unfold JSMap.wf; apply (bool_decide_unpack _); vm_compute; exact I.

Ltac solve_refs_valid :=
  apply refs_valid_Forall; apply (bool_decide_unpack _); vm_compute; exact I.

Section filtering_examples.
Import Database JSMap JSMapFacts.

(** C3 on the three books: pages 10, then pages 30. *)
Lemma where_where_accumulates_witness :
  "pages" ≠ "id" ∧ wf (records three_books.1)
  ∧ lastQuery (where_ "pages" (VNum 30)
                 (where_ "pages" (VNum 10) three_books.1 three_books.2)
                 three_books.2)
    = [(1, 0%nat); (3, 2%nat)].
Proof.
  assert (wf (records three_books.1)) as Hw by solve_wf.
  split; [done|]. split; [exact Hw|].
  destruct (where_where_accumulates "pages" (VNum 10) "pages" (VNum 30)
              three_books.1 three_books.2) as (_ & _ & _ & Hu); [done..|].
  rewrite Hu by reflexivity. vm_compute. reflexivity.
Defined.

End filtering_examples.

Section mutation.
Import Database JSMap JSMapFacts.
Implicit Types (h : heap) (db : Database.t) (k : Z) (l : loc).

(** C4: [update(col, v)].  When no identity of the scope is missing from the
    record collection, it returns the database, maps and counter as they
    were, so the scope is still populated; [col] then reads [v] through
    every entry of the scope and through the entry of the collection under
    the same identity, and no other column of any object has changed.  When
    an identity of the scope is missing from the collection, it throws the
    error that names such an identity. *)
Theorem update_writes_scope_and_records col v db h :
  refs_valid h (lastQuery db) → refs_valid h (records db) →
  (scope_in_records db →
   ∃ h', update col v db h = (h', Return db)
     ∧ (∀ k l, (k, l) ∈ lastQuery db →
          get_field h' l col = v
          ∧ ∃ l', get k (records db) = Some l' ∧ get_field h' l' col = v)
     ∧ (∀ l c, col ≠ c → get_field h' l c = get_field h l c))
  ∧ (∀ k, k ∈ keys (lastQuery db) → k ∉ keys (records db) →
     ∃ h' k', update col v db h = (h', Throw (RecordDidNotExist k'))
       ∧ k' ∈ keys (lastQuery db) ∧ k' ∉ keys (records db)).
Proof.
  intros Hvq Hvr. unfold update. split.
  - intros Hs.
    destruct (update_loop_complete col v (records db) (lastQuery db) h Hs)
      as [h' E].
    exists h'. rewrite E. split_and!; [done | |].
    + by apply (update_loop_writes _ _ _ _ _ _ E).
    + intros l c Hc. by apply (update_loop_other _ _ _ _ _ _ _ _ _ E).
  - intros k Hk Hn.
    destruct (update_loop_stale col v (records db) (lastQuery db) h k Hk Hn)
      as (h' & k' & E & Hk' & Hn').
    exists h', k'. by rewrite E.
Qed.

(** C4 on the three books, after [where("pages", 20)]; and on a scope that
    holds identity 1 over an empty collection. *)
Lemma update_writes_scope_and_records_witness :
  let db := where_ "pages" (VNum 20) three_books.1 three_books.2 in
  let stale := Database.mk 1 [] [(1, 0%nat)] in
  (∃ h', update "pages" (VNum 99) db three_books.2 = (h', Return db)
         ∧ get_field h' 1%nat "pages" = VNum 99)
  ∧ (∃ h', update "pages" (VNum 99) stale library
           = (h', Throw (RecordDidNotExist 1))).
Proof.
  intros db stale. split.
  - destruct (update_writes_scope_and_records "pages" (VNum 99) db three_books.2)
      as [Hok _]; [solve_refs_valid | solve_refs_valid |].
    destruct Hok as (h' & E & Hw & _).
    + apply consistent_scope_in_records, consistent_where.
      apply (consistent_run _ new library consistent_new).
    + exists h'. split; [exact E|].
      apply (Hw 2 1%nat). vm_compute. left.
  - destruct (update_writes_scope_and_records "pages" (VNum 99) stale library)
      as [_ Hthrow]; [solve_refs_valid | solve_refs_valid |].
    destruct (Hthrow 1) as (h' & k' & E & Hk' & _).
    + vm_compute. left.
    + vm_compute. apply not_elem_of_nil.
    + exists h'. rewrite E. do 3 f_equal.
      vm_compute in Hk'. apply elem_of_cons in Hk' as [->|Hk']; [done|].
      by apply elem_of_nil in Hk'.
Defined.

End mutation.

Section reachable.
Import Database JSMap JSMapFacts.
Implicit Types (h : heap) (db : Database.t) (k : Z) (l : loc) (o : op).

Lemma records_where col v db h : records (where_ col v db h) = records db.
Proof.
  unfold where_, whereIndexed. case_decide; [|done].
  destruct v; try done. by destruct (get n (records db)).
Qed.

(** Only [insert] moves the counter, and by one. *)
Lemma autoincrement_exec o db h :
  autoincrement (exec o (db, h)).1.1
  = match o with Insert _ => autoincrement db + 1 | _ => autoincrement db end.
Proof.
  destruct o; simpl; try done.
  - by destruct (find index db h).
  - by destruct (all db h).
  - unfold where_, whereIndexed. case_decide; [|done].
    destruct v; try done. by destruct (get n (records db)).
  - unfold Database.get. by destruct (forEach_push _ _ _).
  - unfold first. by destruct (switchRecordsRetrieval _ _) as [|[]].
  - unfold last. by destruct (get _ _).
  - unfold update. by destruct (update_loop _ _ _ _ _) as [h' [e|]].
  - unfold Database.delete. by destruct (delete_loop _ _ _).
Qed.

Lemma autoincrement_run ops db h :
  autoincrement db ≤ autoincrement (run ops (db, h)).1.
Proof.
  induction ops as [|o ops IH] using rev_ind; [done|].
  rewrite run_snoc. destruct (run ops (db, h)) as [db1 h1]. unfold step.
  rewrite autoincrement_exec. simpl in IH. destruct o; lia.
Qed.

(** C5: in every state reached from a new database by the public
    operations, every identity of the query scope is a key of the record
    collection, and so [update] returns and never throws.  The operations
    other than [delete] and [truncate] keep every key of the collection, and
    those two leave the scope empty. *)
Theorem scope_within_records_reachable ops h0 :
  let '(db, h) := run ops (new, h0) in
  scope_in_records db
  ∧ (∀ col v, ∃ h', update col v db h = (h', Return db))
  ∧ ∀ o, match o with
         | Delete | Truncate => lastQuery (exec o (db, h)).1.1 = []
         | _ => ∀ k, k ∈ keys (records db) →
                     k ∈ keys (records (exec o (db, h)).1.1)
         end.
Proof.
  pose proof (consistent_run ops new h0 consistent_new) as Hc.
  destruct (run ops (new, h0)) as [db h]. simpl in Hc.
  apply consistent_scope_in_records in Hc. split_and!.
  - done.
  - intros col v. unfold update.
    destruct (update_loop_complete col v (records db) (lastQuery db) h Hc)
      as [h' ->]. eauto.
  - intros o. destruct o; simpl; try done.
    + intros k Hk. apply elem_of_keys_set. by right.
    + by destruct (find index db h).
    + by destruct (all db h).
    + by rewrite records_where.
    + unfold Database.get. by destruct (forEach_push _ _ _).
    + unfold first. by destruct (switchRecordsRetrieval _ _) as [|[]].
    + unfold last. by destruct (get _ _).
    + unfold update. by destruct (update_loop _ _ _ _ _) as [h' [e|]].
    + unfold Database.delete. by destruct (delete_loop _ _ _).
Qed.

(** C6: take any two inserts of a program, with any operations before,
    between and after them.  Each stores its definition under the counter
    plus one, above every identity in use; the second identity is strictly
    greater than the first; the model returned carries that identity, for a
    definition without an [id] of its own.  [truncate] empties both maps and
    keeps the counter, so the next insert continues from it. *)
Theorem insert_identities_increase ops1 ops2 (d1 d2 : loc) h0 :
  let '(db0, hp0) := run ops1 (new, h0) in
  let '(db1, h1, m1) := insert d1 db0 hp0 in
  let '(db2', h2') := run ops2 (db1, h1) in
  let '(db2, h2, m2) := insert d2 db2' h2' in
  autoincrement db1 = autoincrement db0 + 1
  ∧ get (autoincrement db1) (records db1) = Some d1
  ∧ get (autoincrement db2) (records db2) = Some d2
  ∧ (∀ k, k ∈ keys (records db0) → k < autoincrement db1)
  ∧ autoincrement db1 < autoincrement db2
  ∧ (deref hp0 d1 !! "id" = None → Model.id m1 = VNum (autoincrement db1))
  ∧ (deref h2' d2 !! "id" = None → Model.id m2 = VNum (autoincrement db2))
  ∧ (∀ db, truncate db = Database.mk (autoincrement db) [] [])
  ∧ (∀ db d h,
       autoincrement (insert d (truncate db) h).1.1 = autoincrement db + 1).
Proof.
  pose proof (consistent_run ops1 new h0 consistent_new) as Hc.
  destruct (run ops1 (new, h0)) as [db0 hp0]. simpl in Hc.
  unfold insert at 1.
  destruct (createFromTemplate d1 (autoincrement db0 + 1) hp0)
    as [h1 m1] eqn:E1.
  match goal with |- context [run ops2 (?d, h1)] =>
    pose proof (autoincrement_run ops2 d h1) as Hle; simpl in Hle;
    destruct (run ops2 (d, h1)) as [db2' h2'] end.
  unfold insert at 1.
  destruct (createFromTemplate d2 (autoincrement db2' + 1) h2')
    as [h2 m2] eqn:E2.
  simpl in *. split_and!; try done.
  - apply get_set_eq.
  - apply get_set_eq.
  - intros k Hk. apply (ids_assigned _ Hc) in Hk. lia.
  - lia.
  - by apply (createFromTemplate_id _ _ _ _ _ E1).
  - by apply (createFromTemplate_id _ _ _ _ _ E2).
Qed.

(** C6 on two books, with a [truncate] in between: identities 1 and 2. *)
Lemma insert_identities_increase_witness :
  let '(db1, h1, m1) := insert 0%nat new library in
  let '(db2, h2, m2) := insert 1%nat (truncate db1) h1 in
  deref library 0%nat !! "id" = None
  ∧ Model.id m1 = VNum 1 ∧ Model.id m2 = VNum 2
  ∧ records db2 = [(2, 1%nat)].
Proof.
  pose proof (insert_identities_increase [] [Truncate] 0%nat 1%nat library)
    as H.
  vm_compute in H. destruct H as (_ & _ & _ & _ & _ & H1 & H2 & _).
  vm_compute. split_and!;
    [reflexivity | exact (H1 eq_refl) | exact (H2 eq_refl) | reflexivity].
Defined.

End reachable.

Section retrieval_and_removal.
Import Database JSMap JSMapFacts.
Implicit Types (h : heap) (db : Database.t) (k : Z) (l : loc).

(** C7: [last(fromScope)] reads one map at the counter: the query scope
    when [fromScope] is true, the record collection when it is false.  It
    returns nothing, and changes nothing, exactly when that map has no entry
    under the counter; otherwise it returns a model of that entry, with the
    counter as identity, and clears the scope.  So once the record under the
    counter has been deleted, [last] returns nothing from either map,
    whatever records remain; the records under the other identities, not in
    the scope at the time, do remain. *)
Theorem last_reads_counter db h b :
  ((last b db h).2 = None
   ↔ get (autoincrement db) (if b then lastQuery db else records db) = None)
  ∧ (get (autoincrement db) (if b then lastQuery db else records db) = None →
     last b db h = (db, h, None))
  ∧ (∀ l, get (autoincrement db) (if b then lastQuery db else records db)
          = Some l →
     ∃ h' m, last b db h = (clear_lastQuery db, h', Some m)
       ∧ deref h' (Model.definition m)
         = deref h l ∪ {["id" := VNum (autoincrement db)]})
  ∧ let db1 := (Database.delete (whereIndexed (VNum (autoincrement db)) db)).1 in
    last b db1 h = (db1, h, None)
    ∧ ∀ k, k ∉ keys (lastQuery db) → k ≠ autoincrement db →
           get k (records db1) = get k (records db).
Proof.
  split_and!.
  - unfold last, switchRecordsRetrieval. by destruct (get _ _).
  - intros Hl. unfold last, switchRecordsRetrieval. by rewrite Hl.
  - intros l Hl. unfold last, switchRecordsRetrieval. rewrite Hl.
    destruct (createFromTemplate l (autoincrement db) h) as [h' m] eqn:E.
    exists h', m. split; [done|].
    by apply createFromTemplate_spec in E as (_ & _ & ? & _).
  - remember (whereIndexed (VNum (autoincrement db)) db) as dbw eqn:Hdbw.
    assert (autoincrement dbw = autoincrement db
            ∧ records dbw = records db
            ∧ (is_Some (get (autoincrement db) (records db)) →
               autoincrement db ∈ keys (lastQuery dbw))
            ∧ (∀ k, k ∈ keys (lastQuery dbw) →
                    k = autoincrement db ∨ k ∈ keys (lastQuery db)))
      as (Ha & Hrec & Hin & Hout).
    { subst dbw. simpl.
      destruct (get (autoincrement db) (records db)) as [l|]; simpl.
      - split_and!; [done | done | |].
        + intros _. apply elem_of_keys_set. by left.
        + intros k Hk. by apply elem_of_keys_set in Hk.
      - split_and!; [done | done | by intros [? ?] | auto]. }
    clear Hdbw. unfold Database.delete.
    destruct (delete_loop _ _ _) as [recs n] eqn:E.
    apply delete_loop_spec in E as [-> _]. simpl. rewrite Hrec. split.
    + unfold last. simpl. rewrite Ha.
      replace (get _ _) with (@None loc); [done|].
      destruct b; simpl; [done|].
      rewrite get_filter_not_in. case_decide as Hk; [done|].
      destruct (get (autoincrement db) (records db)) as [l|] eqn:Hg; [|done].
      exfalso. apply Hk, Hin. eauto.
    + intros k Hk Hne.
      rewrite get_filter_not_in.
      rewrite decide_False; [done|]. intros [?|?]%Hout; done.
Qed.

(** C7 on the three books.  With nothing selected, [last()] finds no entry
    3 in the empty scope and returns nothing, while [last(false)] returns a
    model of the third book; after [where("pages", 30)], [last()] returns
    that model from the scope.  Once the third book is deleted, books 1 and
    2 remain, book 2 is the last entry of the collection, and [last(false)]
    returns nothing. *)
Lemma last_reads_counter_witness :
  let db := three_books.1 in
  let h := three_books.2 in
  let db1 := (Database.delete (whereIndexed (VNum 3) db)).1 in
  (last true db h).2 = None
  ∧ (∃ h' m, last false db h = (clear_lastQuery db, h', Some m)
       ∧ deref h' (Model.definition m) = book 30 ∪ {["id" := VNum 3]})
  ∧ (∃ h' m, last true (where_ "pages" (VNum 30) db h) h
             = (db, h', Some m)
       ∧ deref h' (Model.definition m) = book 30 ∪ {["id" := VNum 3]})
  ∧ records db1 = [(1, 0%nat); (2, 1%nat)]
  ∧ List.last (records db1) (0, 0%nat) = (2, 1%nat)
  ∧ get 2 (records db1) = get 2 (records db)
  ∧ last false db1 h = (db1, h, None).
Proof.
  intros db h db1.
  destruct (last_reads_counter db h true) as (Hnone & _ & _ & _).
  destruct (last_reads_counter db h false) as (_ & _ & Hrec & Hlast & Hrest).
  destruct (last_reads_counter (where_ "pages" (VNum 30) db h) h true)
    as (_ & _ & Hscope & _).
  split_and!.
  - apply Hnone. reflexivity.
  - apply (Hrec 2%nat). reflexivity.
  - apply (Hscope 2%nat). reflexivity.
  - reflexivity.
  - reflexivity.
  - apply Hrest; [apply not_elem_of_nil | discriminate].
  - exact Hlast.
Defined.

(** When every identity of the scope is in the collection, each turn of the
    loop of [delete] removes a record. *)
Lemma delete_loop_count entries recs n recs' n' :
  wf entries → (∀ k, k ∈ keys entries → k ∈ keys recs) →
  delete_loop entries recs n = (recs', n') → n' = (n + length entries)%nat.
Proof.
  unfold wf. revert recs n.
  induction entries as [|[k l] rest IH]; intros recs n; simpl.
  - intros _ _ [= _ <-]. lia.
  - rewrite NoDup_cons. intros [Hk Hrest] Hin E.
    assert (has k recs = true) as Hh by (apply has_true, Hin; left).
    rewrite Hh in E. apply IH in E; [lia | done |].
    intros k' Hk'. apply elem_of_keys_remove. split.
    + intros ->. done.
    + apply Hin. by right.
Qed.

(** C8: [delete()] keeps exactly the records whose identity is not in the
    query scope, returns the number of records removed, and leaves the scope
    empty, so that a second [delete()] returns 0.  When the scope is within
    the collection the number is the size of the scope; so after a [where]
    on an empty scope it is the number of records matched. *)
Theorem delete_removes_scope db :
  wf (records db) → wf (lastQuery db) →
  let '(db', n) := Database.delete db in
  records db' = filter (λ e, e.1 ∉ keys (lastQuery db)) (records db)
  ∧ (n + size (records db') = size (records db))%nat
  ∧ lastQuery db' = []
  ∧ autoincrement db' = autoincrement db
  ∧ (Database.delete db').2 = 0%nat
  ∧ (scope_in_records db → n = size (lastQuery db))
  ∧ ∀ col v h, col ≠ "id" → lastQuery db = [] →
      (Database.delete (where_ col v db h)).2
      = length (matches col v h (records db))
      ∧ records (Database.delete (where_ col v db h)).1
        = filter (λ e, strict_eq (get_field h e.2 col) v ≠ true) (records db).
Proof.
  intros Hr Hq. unfold Database.delete at 1.
  destruct (delete_loop (lastQuery db) (records db) 0) as [recs n] eqn:E.
  pose proof (delete_loop_spec _ _ _ _ _ E) as [-> Hn]. simpl.
  split_and!; try done.
  - by apply Hn.
  - intros Hs. by apply (delete_loop_count _ _ _ _ _ Hq Hs E).
  - intros col v h Hcol Hempty. unfold where_.
    rewrite decide_False by done. rewrite Hempty.
    rewrite where_loop_empty by done.
    unfold Database.delete. simpl.
    destruct (delete_loop (matches col v h (records db)) (records db) 0)
      as [recs2 n2] eqn:E2. simpl.
    pose proof (delete_loop_spec _ _ _ _ _ E2) as [-> _].
    split.
    + apply (delete_loop_count _ _ _ _ _ (wf_filter _ _ Hr)) in E2; [done|].
      intros k. apply keys_filter_elem.
    + apply filter_ext_elem. intros [k l] Hin. simpl.
      unfold matches. by rewrite (key_of_filter_wf _ k l) by done.
Qed.

(** C8 on the three books: [where("pages", 20)] matches one, [delete()]
    returns 1, and a second [delete()] returns 0. *)
Lemma delete_removes_scope_witness :
  let db := where_ "pages" (VNum 20) three_books.1 three_books.2 in
  wf (records db) ∧ wf (lastQuery db)
  ∧ (Database.delete db).2 = 1%nat
  ∧ records (Database.delete db).1 = [(1, 0%nat); (3, 2%nat)]
  ∧ (Database.delete (Database.delete db).1).2 = 0%nat.
Proof.
  intros db.
  assert (wf (records db)) as Hr by solve_wf.
  assert (wf (lastQuery db)) as Hq by solve_wf.
  pose proof (delete_removes_scope db Hr Hq) as H.
  destruct (Database.delete db) as [db' n] eqn:E.
  destruct H as (Hrec & _ & _ & _ & H0 & Hn & _).
  split_and!; [exact Hr | exact Hq | | | exact H0].
  - simpl. rewrite Hn; [reflexivity|].
    apply consistent_scope_in_records, consistent_where.
    apply (consistent_run _ new library consistent_new).
  - simpl. rewrite Hrec. vm_compute. reflexivity.
Defined.

End retrieval_and_removal.

Section models.
Import Database JSMap JSMapFacts.
Implicit Types (h : heap) (db : Database.t) (k : Z) (l : loc) (d : obj).

(** C9: [insert] of a definition [d], one without an [id] of its own,
    returns a model whose [id] is the counter plus one; [find] of that
    identity returns a model with the same [id] whose every other field reads
    as it does in [d].  And [find] of an identity that is not in the record
    collection returns nothing; the store is as it was, and [find] has no
    path that throws. *)
Theorem find_after_insert db h l d :
  h !! l = Some d → d !! "id" = None →
  (let '(db1, h1, m) := insert l db h in
   let i := autoincrement db + 1 in
   Model.id m = VNum i
   ∧ ∃ h2 m', find i db1 h1 = (h2, Some m')
       ∧ Model.id m' = VNum i
       ∧ (∀ key, key ≠ "id" →
            deref h2 (Model.definition m') !! key = d !! key
            ∧ Model.get_prop m' key h2 = default VUndefined (d !! key)))
  ∧ (∀ i, get i (records db) = None → find i db h = (h, None)).
Proof.
  intros Hl Hid. split.
  - unfold insert.
    destruct (createFromTemplate l (autoincrement db + 1) h) as [h1 m] eqn:E1.
    assert (deref h l = d) as Hd by (unfold deref; by rewrite Hl).
    split.
    { apply (createFromTemplate_id _ _ _ _ _ E1). by rewrite Hd. }
    apply createFromTemplate_spec in E1 as (-> & _ & _ & _). rewrite Hd.
    unfold find. cbn [records]. rewrite get_set_eq.
    match goal with |- context [createFromTemplate l ?i ?h1] =>
      destruct (createFromTemplate l i h1) as [h2 m'] eqn:E2 end.
    exists h2, m'. split; [done|].
    assert (deref (h ++ [d ∪ {["id" := VNum (autoincrement db + 1)]}]) l = d)
      as Hd1.
    { rewrite deref_app_l; [done|]. apply lookup_lt_is_Some_1. eauto. }
    split.
    { apply (createFromTemplate_id _ _ _ _ _ E2). by rewrite Hd1. }
    apply createFromTemplate_spec in E2 as (_ & _ & Hobj & _).
    rewrite Hd1 in Hobj.
    intros key Hkey.
    assert (deref h2 (Model.definition m') !! key = d !! key) as Hf.
    { rewrite Hobj, lookup_union, lookup_singleton_ne by done.
      by destruct (d !! key). }
    split; [done|]. unfold Model.get_prop, get_field.
    rewrite decide_False by done. by rewrite Hf.
  - intros i Hi. unfold find. by rewrite Hi.
Qed.

(** C9 on the first book of the library, in a new database. *)
Lemma find_after_insert_witness :
  library !! 0%nat = Some (book 10) ∧ book 10 !! "id" = None
  ∧ let '(db1, h1, m) := insert 0%nat new library in
    Model.id m = VNum 1
    ∧ ∃ h2 m', find 1 db1 h1 = (h2, Some m')
        ∧ Model.get_prop m' "pages" h2 = VNum 10.
Proof.
  assert (library !! 0%nat = Some (book 10)) as Hl by reflexivity.
  assert (book 10 !! "id" = None) as Hid by reflexivity.
  split; [exact Hl|]. split; [exact Hid|].
  destruct (find_after_insert new library 0%nat (book 10) Hl Hid) as [H _].
  destruct (insert 0%nat new library) as [[db1 h1] m].
  destruct H as (Hm & h2 & m' & Hfind & _ & Hfields).
  split; [exact Hm|]. exists h2, m'. split; [exact Hfind|].
  destruct (Hfields "pages") as [_ Hp]; [discriminate|]. exact Hp.
Defined.

(** A setter does write: the model reads the new value afterwards. *)
Lemma set_prop_get_prop (m : Model.t) key v h :
  key ≠ "id" → is_Some (deref h (Model.definition m) !! key) →
  let '(m', h') := Model.set_prop m key v h in Model.get_prop m' key h' = v.
Proof.
  intros Hkey Hsome. unfold Model.set_prop.
  rewrite decide_False, decide_True by done.
  unfold Model.get_prop. rewrite decide_False by done.
  apply get_field_set_field_eq.
  destruct (h !! Model.definition m) as [o|] eqn:Ho.
  - apply lookup_lt_is_Some_1. eauto.
  - unfold deref in Hsome. rewrite Ho in Hsome. simpl in Hsome.
    rewrite lookup_empty in Hsome. by destruct Hsome.
Qed.

(** C10: a model handed out by [find], [all], [get], [first] or [last] is
    an object of its own.  Writing any value to any of its fields leaves
    every object of the record collection as it was before the retrieval,
    as the retrieval itself does. *)
Theorem model_mutation_leaves_records o db h :
  is_retrieval o = true → refs_valid h (records db) →
  let '(db', h', out) := exec o (db, h) in
  records db' = records db
  ∧ ∀ m key v, m ∈ models_of out →
      ∀ k l, get k (records db') = Some l →
        (Model.set_prop m key v h').2 !! l = h !! l ∧ h' !! l = h !! l.
Proof.
  intros Ho Hv. destruct (exec o (db, h)) as [[db' h'] out] eqn:E.
  apply retrieval_extends in E as (Hrec & ext & -> & Hall); [|done].
  split; [done|]. intros m key v Hm k l Hl.
  rewrite Hrec in Hl. apply get_Some_elem, Hv in Hl.
  rewrite Forall_forall in Hall. specialize (Hall m Hm). simpl in Hall.
  destruct (Model.set_prop m key v (h ++ ext)) as [m' h''] eqn:Es. simpl.
  rewrite (set_prop_frame _ _ _ _ _ _ l Es) by lia.
  by rewrite lookup_app_l.
Qed.

(** The same holds of the model that [insert] returns. *)
Lemma inserted_model_mutation_leaves_records (definition : loc) db h :
  (definition < length h)%nat → refs_valid h (records db) →
  let '(db', h', m) := insert definition db h in
  ∀ key v k l, get k (records db') = Some l →
    (Model.set_prop m key v h').2 !! l = h !! l.
Proof.
  intros Hd Hv. unfold insert.
  destruct (createFromTemplate _ _ h) as [h' m] eqn:E.
  apply createFromTemplate_spec in E as (-> & Hm & _ & _).
  intros key v k l. simpl. rewrite get_set. intros Hl.
  assert (l < length h)%nat as Hlt.
  { case_decide; [by injection Hl as <- |].
    by apply get_Some_elem, Hv in Hl. }
  destruct (Model.set_prop m key v _) as [m' h''] eqn:Es. simpl.
  rewrite (set_prop_frame _ _ _ _ _ _ l Es) by lia.
  by rewrite lookup_app_l.
Qed.

(** C10 on the three books: [find(2)] returns a model; once the model is
    given 99999 pages, the second book still has 20. *)
Lemma model_mutation_leaves_records_witness :
  refs_valid three_books.2 (records three_books.1)
  ∧ get 2 (records three_books.1) = Some 1%nat
  ∧ models_of (exec (Find 2) (three_books.1, three_books.2)).2 ≠ []
  ∧ ∀ m, m ∈ models_of (exec (Find 2) (three_books.1, three_books.2)).2 →
      (Model.set_prop m "pages" (VNum 99999)
         (exec (Find 2) (three_books.1, three_books.2)).1.2).2 !! 1%nat
      = Some (book 20).
Proof.
  assert (refs_valid three_books.2 (records three_books.1)) as Hv
    by solve_refs_valid.
  assert (get 2 (records three_books.1) = Some 1%nat) as Hg by reflexivity.
  assert (three_books.2 !! 1%nat = Some (book 20)) as Hb by reflexivity.
  assert (models_of (exec (Find 2) (three_books.1, three_books.2)).2 ≠ [])
    as Hm by (vm_compute; discriminate).
  split; [exact Hv|]. split; [exact Hg|]. split; [exact Hm|].
  pose proof (model_mutation_leaves_records (Find 2)
                three_books.1 three_books.2 eq_refl Hv) as H.
  destruct (exec (Find 2) (three_books.1, three_books.2)) as [[db' h'] out].
  destruct H as [Hrec H]. intros m Hin. simpl.
  rewrite <- Hrec in Hg.
  destruct (H m "pages" (VNum 99999) Hin 2 1%nat Hg) as [Hs _].
  etrans; [exact Hs | exact Hb].
Defined.

End models.

(** ** The embedding on the repository's scenarios *)

Section scenarios.
Import Database.

(** Three books of 10, 20 and 30 pages;
    [where("pages", 20).update("pages", 99).get()] returns one model, of 99
    pages, and [all()] then shows 10, 99 and 30. *)
Example update_then_get_scenario :
  let '(db, h) :=
    run [Where "pages" (VNum 20); Update "pages" (VNum 99)] three_books in
  let '(db1, h1, selected) := get db h in
  let '(h2, everything) := all db1 h1 in
  ((λ m, Model.get_prop m "pages" h1) <$> selected) = [VNum 99]
  ∧ ((λ m, Model.get_prop m "pages" h2) <$> everything)
    = [VNum 10; VNum 99; VNum 30]
  ∧ ((λ m, Model.id m) <$> everything) = [VNum 1; VNum 2; VNum 3].
Proof. vm_compute. by split_and!. Qed.

(** The model that [insert] returns is edited and never saved: the stored
    book keeps its pages, as the repository's test expects. *)
Example edit_without_save_scenario :
  let '(db, h, m) := insert 0%nat new library in
  let '(m', h') := Model.set_prop m "pages" (VNum 99999) h in
  Model.get_prop m' "pages" h' = VNum 99999
  ∧ let '(h'', r) := find 1 db h' in
    (λ m, Model.get_prop m "pages" h'') <$> r = Some (VNum 10).
Proof. vm_compute. by split_and!. Qed.

(** A definition that carries an [id] of its own is outside the contract
    of the class: [Object.assign({ id }, definition)] lets it overwrite the
    identity, and the model then shows the definition's [id]. *)
Example definition_with_own_id :
  let h : heap := [{["id" := VNum 7; "pages" := VNum 1]}] in
  let '(db, h', m) := insert 0%nat new h in
  JSMap.keys (records db) = [1] ∧ Model.id m = VNum 7.
Proof. vm_compute. by split_and!. Qed.

End scenarios.

(** * Further properties of the code *)

(** ** [get] and [all]: one fresh model per entry, in iteration order *)

Section materialise.
Import Database JSMap JSMapFacts.
Implicit Types (h : heap) (db : Database.t) (k : Z) (l : loc).

(** The loop shared by [get] and [all] in closed form: the store grows by
    one copy per entry, and the models are built over these copies. *)
Lemma forEach_push_closed (entries : list (Z * loc)) h models :
  refs_valid h entries →
  forEach_push entries h models
  = (h ++ ((λ e, deref h e.2 ∪ {["id" := VNum e.1]}) <$> entries),
     models
     ++ imap (λ i e,
          Model.mk
            (default VUndefined ((deref h e.2 ∪ {["id" := VNum e.1]}) !! "id"))
            (length h + i)) entries).
Proof.
  revert h models. induction entries as [|[k l] rest IH]; intros h models Hv.
  - simpl. by rewrite !app_nil_r.
  - cbn [forEach_push]. rewrite createFromTemplate_unfold. cbn beta iota.
    rewrite IH.
    + rewrite fmap_cons, imap_cons, <- !app_assoc. simpl. f_equal.
      * do 2 f_equal. apply list_fmap_ext. intros i [k' l'] Hi. simpl.
        rewrite deref_app_l; [done|].
        apply (Hv k'). right. by eapply list_elem_of_lookup_2.
      * do 2 f_equal.
        { unfold Model.constructor, get_field. rewrite deref_snoc.
          by rewrite Nat.add_0_r. }
        apply imap_ext. intros i [k' l'] Hi. simpl.
        rewrite deref_app_l, length_app; [simpl; f_equal; lia|].
        apply (Hv k'). right. by eapply list_elem_of_lookup_2.
    + intros k' l' Hin. rewrite length_app. simpl.
      assert (l' < length h)%nat; [|lia]. apply (Hv k'). by right.
Qed.

(** What the loop hands out, entry by entry. *)
Lemma forEach_push_lookup (entries : list (Z * loc)) h h' ms i k l :
  refs_valid h entries →
  forEach_push entries h [] = (h', ms) →
  entries !! i = Some (k, l) →
  ∃ m, ms !! i = Some m
    ∧ Model.definition m = (length h + i)%nat
    ∧ deref h' (Model.definition m) = deref h l ∪ {["id" := VNum k]}
    ∧ (deref h l !! "id" = None → Model.id m = VNum k).
Proof.
  intros Hv E Hi. rewrite forEach_push_closed in E by done.
  injection E as <- <-. simpl.
  rewrite list_lookup_imap, Hi. simpl. eexists. split; [done|]. simpl.
  split_and!.
  - done.
  - unfold deref. rewrite lookup_app_r by lia.
    replace (length h + i - length h)%nat with i by lia.
    by rewrite list_lookup_fmap, Hi.
  - intros Hid. by rewrite lookup_union_r, lookup_singleton_eq.
Qed.

(** X1: [get()] returns one model per entry of the query scope, in the
    order of the scope; the model of an entry is a new object holding the
    fields of the entry's record and the entry's identity as [id] (unless
    the record has an [id] of its own).  The scope is empty afterwards, the
    record collection and the counter are untouched, and no object that
    existed before has changed. *)
Theorem get_materialises_scope db h :
  refs_valid h (lastQuery db) →
  let '(db', h', ms) := Database.get db h in
  db' = clear_lastQuery db
  ∧ length ms = count true db
  ∧ (∀ l, (l < length h)%nat → h' !! l = h !! l)
  ∧ ∀ i k l, lastQuery db !! i = Some (k, l) →
      ∃ m, ms !! i = Some m
        ∧ (length h ≤ Model.definition m)%nat
        ∧ deref h' (Model.definition m) = deref h l ∪ {["id" := VNum k]}
        ∧ (deref h l !! "id" = None → Model.id m = VNum k).
Proof.
  intros Hv. unfold Database.get.
  destruct (forEach_push (lastQuery db) h []) as [h' ms] eqn:E.
  split_and!.
  - done.
  - rewrite forEach_push_closed in E by done. injection E as <- <-.
    simpl. by rewrite length_imap.
  - rewrite forEach_push_closed in E by done. injection E as <- <-.
    intros l Hl. by rewrite lookup_app_l.
  - intros i k l Hi.
    destruct (forEach_push_lookup _ _ _ _ _ _ _ Hv E Hi)
      as (m & Hm & Hd & Ho & Hid).
    exists m. split_and!; [done | lia | done | done].
Qed.

(** X2: [all()] returns one model per record, in the order of the
    collection, built like those of [get]; it changes neither map nor the
    counter, and no object that existed before. *)
Theorem all_materialises_records db h :
  refs_valid h (records db) →
  let '(h', ms) := all db h in
  length ms = count false db
  ∧ (∀ l, (l < length h)%nat → h' !! l = h !! l)
  ∧ ∀ i k l, records db !! i = Some (k, l) →
      ∃ m, ms !! i = Some m
        ∧ (length h ≤ Model.definition m)%nat
        ∧ deref h' (Model.definition m) = deref h l ∪ {["id" := VNum k]}
        ∧ (deref h l !! "id" = None → Model.id m = VNum k).
Proof.
  intros Hv. unfold all.
  destruct (forEach_push (records db) h []) as [h' ms] eqn:E.
  split_and!.
  - rewrite forEach_push_closed in E by done. injection E as <- <-.
    simpl. by rewrite length_imap.
  - rewrite forEach_push_closed in E by done. injection E as <- <-.
    intros l Hl. by rewrite lookup_app_l.
  - intros i k l Hi.
    destruct (forEach_push_lookup _ _ _ _ _ _ _ Hv E Hi)
      as (m & Hm & Hd & Ho & Hid).
    exists m. split_and!; [done | lia | done | done].
Qed.

End materialise.

Section materialise_examples.
Import Database JSMap JSMapFacts.

(** X1 on the three books, after [where("pages", 20)]. *)
Lemma get_materialises_scope_witness :
  let db := where_ "pages" (VNum 20) three_books.1 three_books.2 in
  refs_valid three_books.2 (lastQuery db)
  ∧ length (Database.get db three_books.2).2 = 1%nat
  ∧ lastQuery (Database.get db three_books.2).1.1 = [].
Proof.
  intros db.
  assert (refs_valid three_books.2 (lastQuery db)) as Hv by solve_refs_valid.
  pose proof (get_materialises_scope db three_books.2 Hv) as H.
  destruct (Database.get db three_books.2) as [[db' h'] ms].
  destruct H as (-> & Hlen & _).
  split; [exact Hv|]. split; [exact Hlen | reflexivity].
Defined.

(** X2 on the three books. *)
Lemma all_materialises_records_witness :
  refs_valid three_books.2 (records three_books.1)
  ∧ length (all three_books.1 three_books.2).2 = 3%nat.
Proof.
  assert (refs_valid three_books.2 (records three_books.1)) as Hv
    by solve_refs_valid.
  pose proof (all_materialises_records three_books.1 three_books.2 Hv) as H.
  destruct (all three_books.1 three_books.2) as [h' ms].
  destruct H as (Hlen & _). split; [exact Hv | exact Hlen].
Defined.

End materialise_examples.

(** ** The record collection in reachable states *)

Section collection.
Import JSMap JSMapFacts.
Implicit Types (h : heap) (db : Database.t) (k : Z) (l : loc) (o : op).

Lemma sorted_keys_filter (P : Z * loc → Prop) `{!∀ e, Decision (P e)}
    (m : list (Z * loc)) :
  StronglySorted Z.lt (keys m) → StronglySorted Z.lt (keys (filter P m)).
Proof.
  unfold keys. induction m as [|[k0 l0] m IH]; [done|].
  rewrite fmap_cons, filter_cons, StronglySorted_cons. simpl.
  intros [Hall Hs]. case_decide; [|auto].
  rewrite fmap_cons, StronglySorted_cons. simpl. split; [|auto].
  rewrite Forall_forall in Hall |- *. intros k Hk.
  apply Hall. by apply keys_filter_elem in Hk.
Qed.

(** The operations other than [insert], [delete] and [truncate] leave the
    record collection and the counter as they are. *)
Lemma records_exec_other o db h :
  match o with
  | Insert _ | Delete | Truncate => True
  | _ => Database.records (exec o (db, h)).1.1 = Database.records db
         ∧ Database.autoincrement (exec o (db, h)).1.1
           = Database.autoincrement db
  end.
Proof.
  destruct o; simpl; try done.
  - by destruct (Database.find index db h).
  - by destruct (Database.all db h).
  - split; [apply records_where|].
    apply (autoincrement_exec (Where whereColumn v) db h).
  - unfold Database.get. by destruct (Database.forEach_push _ _ _).
  - unfold Database.first.
    by destruct (Database.switchRecordsRetrieval _ _) as [|[]].
  - unfold Database.last. by destruct (get _ _).
  - unfold Database.update.
    by destruct (Database.update_loop _ _ _ _ _) as [h' [e|]].
Qed.

Lemma sorted_exec o db h :
  consistent db →
  StronglySorted Z.lt (keys (Database.records db)) →
  StronglySorted Z.lt (keys (Database.records (exec o (db, h)).1.1)).
Proof.
  intros Hc Hs. pose proof (records_exec_other o db h) as Ho.
  destruct o;
    try (lazymatch type of Ho with _ ∧ _ => by destruct Ho as [-> _] end).
  - simpl. rewrite keys_set.
    destruct (has _ _) eqn:Hh.
    + apply has_true, (ids_assigned _ Hc) in Hh. lia.
    + apply StronglySorted_app. split_and!; [|done|].
      * intros k1 k2 Hk1%(ids_assigned _ Hc) ->%list_elem_of_singleton. lia.
      * repeat constructor.
  - simpl. unfold Database.delete.
    destruct (Database.delete_loop _ _ _) as [recs n] eqn:E.
    apply delete_loop_spec in E as [-> _]. simpl.
    by apply sorted_keys_filter.
  - simpl. constructor.
Qed.

Lemma sorted_run ops h0 :
  StronglySorted Z.lt
    (keys (Database.records (run ops (Database.new, h0)).1)).
Proof.
  induction ops as [|o ops IH] using rev_ind; [constructor|].
  pose proof (consistent_run ops Database.new h0 consistent_new) as Hc.
  rewrite run_snoc. destruct (run ops (Database.new, h0)) as [db h].
  by apply sorted_exec.
Qed.

(** X3: in every state reached from a new database by the public
    operations, the record collection iterates in strictly ascending order
    of identity, and every identity in it is positive and at most the
    counter. *)
Theorem records_ascending_reachable ops h0 :
  let db := (run ops (Database.new, h0)).1 in
  StronglySorted Z.lt (keys (Database.records db))
  ∧ ∀ k, k ∈ keys (Database.records db) → 0 < k ≤ Database.autoincrement db.
Proof.
  simpl. split; [apply sorted_run|].
  apply ids_assigned, consistent_run, consistent_new.
Qed.

(** X4: in every reachable state, an entry of the query scope is the very
    object that the record collection holds under the same identity; and
    the keys of the scope are distinct. *)
Theorem scope_shares_records_reachable ops h0 :
  let db := (run ops (Database.new, h0)).1 in
  (∀ k l, get k (Database.lastQuery db) = Some l →
          get k (Database.records db) = Some l)
  ∧ NoDup (keys (Database.lastQuery db)).
Proof.
  simpl.
  pose proof (consistent_run ops Database.new h0 consistent_new) as Hc.
  split; [apply (scope_shares _ Hc) | apply (lastQuery_wf _ Hc)].
Qed.

End collection.

Section ends_of_collection.
Import JSMap JSMapFacts.
Implicit Types (h : heap) (db : Database.t) (k : Z) (l : loc).

Lemma sorted_head_least (m : list (Z * loc)) k0 l0 rest :
  StronglySorted Z.lt (keys m) → m = (k0, l0) :: rest →
  ∀ k, k ∈ keys m → k0 ≤ k.
Proof.
  intros Hs -> k. unfold keys in *. rewrite fmap_cons in Hs |- *. simpl in *.
  apply StronglySorted_cons in Hs as [Hall _]. rewrite Forall_forall in Hall.
  intros [->|Hk%Hall]%elem_of_cons; lia.
Qed.

Lemma sorted_greatest_last (m : list (Z * loc)) k l :
  StronglySorted Z.lt (keys m) → (k, l) ∈ m →
  (∀ k', k' ∈ keys m → k' ≤ k) →
  list.last m = Some (k, l).
Proof.
  unfold keys. induction m as [|[k0 l0] m IH]; simpl.
  - intros _ Hin. by apply elem_of_nil in Hin.
  - rewrite StronglySorted_cons, Forall_forall.
    intros [Hall Hs] Hin Hmax. destruct m as [|e m'].
    + apply elem_of_cons in Hin as [[= -> ->]|Hin]; [done|].
      by apply elem_of_nil in Hin.
    + rewrite last_cons_cons. apply IH; [done | |].
      * apply elem_of_cons in Hin as [[= -> ->]|Hin]; [|done].
        exfalso. assert (e.1 ∈ e.1 :: m'.*1) as He by left.
        pose proof (Hall _ He). pose proof (Hmax e.1 ltac:(by right)). lia.
      * intros k' Hk'. apply Hmax. by right.
Qed.

(** X5: in every reachable state, [first(false)] returns nothing exactly
    when the record collection is empty, and otherwise a model of the record
    with the least identity, with that identity; the query scope is empty
    afterwards. *)
Theorem first_of_records_is_oldest ops h0 :
  let '(db, h) := run ops (Database.new, h0) in
  let '(db', h', r) := Database.first false db h in
  match r with
  | None => Database.records db = [] ∧ db' = db ∧ h' = h
  | Some m =>
      Database.lastQuery db' = []
      ∧ ∃ k l, get k (Database.records db) = Some l
          ∧ (∀ k', k' ∈ keys (Database.records db) → k ≤ k')
          ∧ deref h' (Model.definition m) = deref h l ∪ {["id" := VNum k]}
  end.
Proof.
  pose proof (sorted_run ops h0) as Hs.
  destruct (run ops (Database.new, h0)) as [db h]. simpl in Hs.
  unfold Database.first. simpl.
  destruct (Database.records db) as [|[k l] rest] eqn:E; [done|].
  split; [done|]. exists k, l. split_and!.
  - simpl. by rewrite decide_True.
  - by eapply sorted_head_least.
  - apply deref_snoc.
Qed.

(** X6: in every reachable state, [last(false)] returns a model exactly
    when the record under the counter is still there; that record is then
    the last of the collection by iteration and has the greatest identity.
    When it returns nothing, nothing has changed. *)
Theorem last_of_records_is_newest ops h0 :
  let '(db, h) := run ops (Database.new, h0) in
  let '(db', h', r) := Database.last false db h in
  match r with
  | None =>
      (Database.autoincrement db ∉ keys (Database.records db))
      ∧ db' = db ∧ h' = h
  | Some m =>
      Database.lastQuery db' = []
      ∧ ∃ l, list.last (Database.records db)
             = Some (Database.autoincrement db, l)
          ∧ (∀ k', k' ∈ keys (Database.records db) →
                   k' ≤ Database.autoincrement db)
          ∧ deref h' (Model.definition m)
            = deref h l ∪ {["id" := VNum (Database.autoincrement db)]}
  end.
Proof.
  pose proof (sorted_run ops h0) as Hs.
  pose proof (consistent_run ops Database.new h0 consistent_new) as Hc.
  destruct (run ops (Database.new, h0)) as [db h]. simpl in Hs, Hc.
  unfold Database.last. simpl.
  destruct (get (Database.autoincrement db) (Database.records db))
    as [l|] eqn:Hg.
  - assert (∀ k', k' ∈ keys (Database.records db) →
                  k' ≤ Database.autoincrement db) as Hmax.
    { intros k' Hk'. apply (ids_assigned _ Hc) in Hk'. lia. }
    split; [done|]. exists l. split_and!.
    + apply sorted_greatest_last; [done | by apply get_Some_elem | done].
    + done.
    + apply deref_snoc.
  - split_and!; [by apply get_None | done | done].
Qed.

(** X7: in every reachable state, [insert] adds a record: the size of the
    collection grows by one, the definition is stored under the new
    identity as the last entry, every other identity keeps its record, and
    the query scope is untouched. *)
Theorem insert_adds_record ops h0 (d : loc) :
  let '(db, h) := run ops (Database.new, h0) in
  let '(db', h', m) := Database.insert d db h in
  Database.count false db' = S (Database.count false db)
  ∧ Database.records db'
    = Database.records db ++ [(Database.autoincrement db + 1, d)]
  ∧ (∀ k, k ≠ Database.autoincrement db + 1 →
          get k (Database.records db') = get k (Database.records db))
  ∧ Database.lastQuery db' = Database.lastQuery db.
Proof.
  pose proof (consistent_run ops Database.new h0 consistent_new) as Hc.
  destruct (run ops (Database.new, h0)) as [db h]. simpl in Hc.
  unfold Database.insert.
  destruct (Database.createFromTemplate d _ h) as [h' m]. simpl.
  assert (Database.autoincrement db + 1 ∉ keys (Database.records db)) as Hn.
  { intros Hin%(ids_assigned _ Hc). lia. }
  split_and!.
  - apply size_set_new. by apply has_false.
  - by apply set_new.
  - intros k Hk. by apply get_set_ne.
  - done.
Qed.

End ends_of_collection.

(** ** What the operations leave alone *)

Section frames.
Import JSMap JSMapFacts.
Implicit Types (h : heap) (db : Database.t) (k : Z) (l : loc) (o : op).

(** X8: [find], [all], [count], [where], [get], [first], [last] and
    [update] never change the record collection or the counter, whatever the
    state; so [count(false)] is the same before and after each of them. *)
Theorem only_insert_delete_truncate_change_records o db h :
  match o with
  | Insert _ | Delete | Truncate => True
  | _ =>
      Database.records (exec o (db, h)).1.1 = Database.records db
      ∧ Database.autoincrement (exec o (db, h)).1.1
        = Database.autoincrement db
      ∧ Database.count false (exec o (db, h)).1.1 = Database.count false db
  end.
Proof.
  pose proof (records_exec_other o db h) as Ho.
  destruct o; try done; destruct Ho as [Hr Ha];
    (split_and!; [done | done | unfold Database.count; by rewrite Hr]).
Qed.

(** X9: no operation other than [update] writes to an object that exists:
    the others leave the store as it is or append new objects to it. *)
Theorem only_update_writes_objects o db h :
  match o with
  | Update _ _ => True
  | _ => ∃ ext, (exec o (db, h)).1.2 = h ++ ext
  end.
Proof.
  destruct o; simpl; try done;
    try (exists []; by rewrite app_nil_r).
  - eexists [_]. reflexivity.
  - unfold Database.find. destruct (get _ _).
    + eexists [_]. reflexivity.
    + exists []. by rewrite app_nil_r.
  - unfold Database.all.
    destruct (Database.forEach_push _ _ _) as [h' ms] eqn:E.
    apply forEach_push_spec in E as (ext & _ & -> & _). eauto.
  - unfold Database.get.
    destruct (Database.forEach_push _ _ _) as [h' ms] eqn:E.
    apply forEach_push_spec in E as (ext & _ & -> & _). eauto.
  - unfold Database.first.
    destruct (Database.switchRecordsRetrieval _ _) as [|[k l] rest].
    + exists []. by rewrite app_nil_r.
    + eexists [_]. reflexivity.
  - unfold Database.last. destruct (get _ _).
    + eexists [_]. reflexivity.
    + exists []. by rewrite app_nil_r.
  - unfold Database.delete. destruct (Database.delete_loop _ _ _).
    exists []. by rewrite app_nil_r.
Qed.

End frames.

(** ** More on [where] *)

Section where_more.
Import Database JSMap JSMapFacts.
Implicit Types (h : heap) (db : Database.t) (k : Z) (l : loc).

Lemma with_lastQuery_id db : with_lastQuery (lastQuery db) db = db.
Proof. by destruct db. Qed.

Lemma strict_eq_NaN (a : value) : strict_eq a VNaN = false.
Proof. by destruct a. Qed.

Lemma matches_NaN col h (recs : list (Z * loc)) : matches col VNaN h recs = [].
Proof.
  unfold matches. induction recs as [|e recs IH]; [done|].
  rewrite filter_cons, strict_eq_NaN. by rewrite decide_False.
Qed.

Lemma filter_none {A} (P : A → Prop) `{!∀ x, Decision (P x)} (xs : list A) :
  (∀ x, x ∈ xs → ¬ P x) → filter P xs = [].
Proof.
  induction xs as [|x xs IH]; [done|]. intros Hn.
  rewrite filter_cons, decide_False by (apply Hn; left).
  apply IH. intros y Hy. apply Hn. by right.
Qed.

(** X10: repeating a [where] changes nothing: the second call finds every
    match already in the scope, in its place and with its record. *)
Theorem where_twice_is_where col v db h :
  wf (records db) →
  where_ col v (where_ col v db h) h = where_ col v db h.
Proof.
  intros Hr. unfold where_. case_decide.
  - destruct v as [| | |n| | |]; try done. simpl.
    destruct (get n (records db)) as [l|] eqn:Hg; simpl.
    + rewrite Hg. unfold with_lastQuery. simpl.
      by rewrite set_id by apply get_set_eq.
    + by rewrite Hg.
  - unfold with_lastQuery. simpl. f_equal.
    rewrite (where_loop_foldl col v h (records db)
               (where_loop col v h (records db) (lastQuery db))).
    rewrite foldl_set_union.
    + rewrite filter_none; [by rewrite app_nil_r|].
      intros [k l] Hin Hn. simpl in Hn.
      apply Hn, where_loop_keys; [done|]. right. by eapply elem_keys.
    + by apply wf_filter.
    + intros k l l' Hin. rewrite where_loop_get by done.
      assert (get k (matches col v h (records db)) = Some l) as ->
        by (apply elem_get; [by apply wf_filter | done]).
      by intros [= <-].
Qed.

End where_more.

Section where_compositions.
Import Database JSMap JSMapFacts.
Implicit Types (h : heap) (db : Database.t) (k : Z) (l : loc).

(** X10 on the three books. *)
Lemma where_twice_is_where_witness :
  wf (records three_books.1)
  ∧ lastQuery (where_ "pages" (VNum 20)
                 (where_ "pages" (VNum 20) three_books.1 three_books.2)
                 three_books.2)
    = [(2, 1%nat)].
Proof.
  assert (wf (records three_books.1)) as Hw by solve_wf.
  split; [exact Hw|].
  rewrite (where_twice_is_where "pages" (VNum 20)
             three_books.1 three_books.2 Hw).
  reflexivity.
Defined.

(** X11: [where(column, NaN)] selects nothing, whatever the column and the
    state, for [NaN] is strictly equal to no value and is the key of no
    record: the database is left as it was. *)
Theorem where_NaN_selects_nothing col db h : where_ col VNaN db h = db.
Proof.
  unfold where_. case_decide; [done|].
  rewrite where_loop_foldl, matches_NaN. simpl. apply with_lastQuery_id.
Qed.

(** X12: on an empty query scope, [where("id", i).first()] is [find(i)]:
    the same result and the same store, and the scope is empty again
    afterwards. *)
Theorem where_id_first_is_find (i : Z) db h :
  lastQuery db = [] →
  first true (where_ "id" (VNum i) db h) h
  = let '(h', r) := find i db h in (db, h', r).
Proof.
  intros Hq. unfold where_. rewrite decide_True by done.
  unfold whereIndexed, find, first.
  destruct (get i (records db)) as [l|]; simpl.
  - rewrite Hq. simpl. do 2 f_equal.
    destruct db as [a r q]. simpl in *. by subst q.
  - by rewrite Hq.
Qed.

(** X12 on the three books. *)
Lemma where_id_first_is_find_witness :
  lastQuery three_books.1 = []
  ∧ first true (where_ "id" (VNum 2) three_books.1 three_books.2)
      three_books.2
    = let '(h', r) := find 2 three_books.1 three_books.2 in
      (three_books.1, h', r).
Proof.
  assert (lastQuery three_books.1 = []) as Hq by reflexivity.
  split; [exact Hq|].
  exact (where_id_first_is_find 2 three_books.1 three_books.2 Hq).
Defined.

(** X13: two [where] calls on columns other than [id] select the same
    records in either order: the two resulting scopes hold the same
    identities, each with the same record. *)
Theorem where_where_commute c1 v1 c2 v2 db h k :
  c1 ≠ "id" → c2 ≠ "id" → wf (records db) →
  get k (lastQuery (where_ c2 v2 (where_ c1 v1 db h) h))
  = get k (lastQuery (where_ c1 v1 (where_ c2 v2 db h) h)).
Proof.
  intros H1 H2 Hr. unfold where_. rewrite !decide_False by done. simpl.
  rewrite !where_loop_get by done.
  destruct (get k (matches c2 v2 h (records db))) as [l2|] eqn:E2;
    destruct (get k (matches c1 v1 h (records db))) as [l1|] eqn:E1;
    try done.
  unfold matches in E1, E2.
  apply elem_of_filter_wf in E1 as [E1 _]; [|done].
  apply elem_of_filter_wf in E2 as [E2 _]; [|done]. congruence.
Qed.

(** X13 on the three books. *)
Lemma where_where_commute_witness :
  "pages" ≠ "id" ∧ wf (records three_books.1)
  ∧ get 3 (lastQuery (where_ "pages" (VNum 30)
              (where_ "pages" (VNum 10) three_books.1 three_books.2)
              three_books.2))
    = Some 2%nat.
Proof.
  assert (wf (records three_books.1)) as Hw by solve_wf.
  split; [done|]. split; [exact Hw|].
  rewrite (where_where_commute "pages" (VNum 10) "pages" (VNum 30)
             three_books.1 three_books.2 3); [reflexivity | done | done |].
  exact Hw.
Defined.

End where_compositions.

(** ** [update], [delete] and what [find] sees afterwards *)

Section after_mutation.
Import Database JSMap JSMapFacts.
Implicit Types (h : heap) (db : Database.t) (k : Z) (l : loc).

Lemma update_loop_frame col v (recs entries : list (Z * loc)) h h' r l :
  update_loop col v recs entries h = (h', r) →
  (∀ k l0, (k, l0) ∈ entries → l ≠ l0 ∧ get k recs ≠ Some l) →
  h' !! l = h !! l.
Proof.
  revert h. induction entries as [|[k0 l0] rest IH]; intros h; simpl.
  - by intros [= <- <-].
  - destruct (get k0 recs) as [d|] eqn:Hg; [|by intros [= <- <-]].
    intros E Hl. rewrite (IH _ E).
    + destruct (Hl k0 l0) as [Hne Hd]; [left|].
      rewrite !lookup_set_field_ne; [done | done |].
      intros ->. by apply Hd.
    + intros k l1 Hin. apply Hl. by right.
Qed.

(** X14: after [update(col, v)] on a scope within the collection, [find]
    of any identity of the scope returns a model whose [col] reads [v]. *)
Theorem update_then_find col v db h k :
  col ≠ "id" →
  refs_valid h (lastQuery db) → refs_valid h (records db) →
  scope_in_records db →
  k ∈ keys (lastQuery db) →
  ∃ h1, update col v db h = (h1, Return db)
    ∧ ∃ h2 m, find k db h1 = (h2, Some m)
        ∧ Model.get_prop m col h2 = v.
Proof.
  intros Hcol Hvq Hvr Hs Hk. unfold update.
  destruct (update_loop_complete col v (records db) (lastQuery db) h Hs)
    as [h1 E].
  rewrite E. exists h1. split; [done|].
  apply get_is_Some in Hk as [l Hl%get_Some_elem].
  destruct (update_loop_writes _ _ _ _ _ _ E Hvq Hvr k l Hl)
    as (_ & l' & Hg & Hw).
  unfold find. rewrite Hg.
  destruct (createFromTemplate l' k h1) as [h2 m] eqn:Et.
  exists h2, m. split; [done|].
  apply createFromTemplate_spec in Et as (_ & _ & Ho & _).
  unfold Model.get_prop, get_field. rewrite decide_False by done.
  rewrite Ho, lookup_union, lookup_singleton_ne by done.
  revert Hw. unfold get_field. by destruct (deref h1 l' !! col).
Qed.

(** X14 on the three books, after [where("pages", 20)]. *)
Lemma update_then_find_witness :
  let db := where_ "pages" (VNum 20) three_books.1 three_books.2 in
  ∃ h1, update "pages" (VNum 99) db three_books.2 = (h1, Return db)
    ∧ ∃ h2 m, find 2 db h1 = (h2, Some m)
        ∧ Model.get_prop m "pages" h2 = VNum 99.
Proof.
  intros db.
  apply (update_then_find "pages" (VNum 99) db three_books.2 2).
  - discriminate.
  - solve_refs_valid.
  - solve_refs_valid.
  - apply consistent_scope_in_records, consistent_where.
    apply (consistent_run _ new library consistent_new).
  - apply (bool_decide_unpack _). vm_compute. exact I.
Defined.

(** X15: in a state where each entry of the scope is the object of the
    collection under its identity, [update] writes to the objects of the
    scope only: every other object of the store is as it was, whether
    [update] returns or throws. *)
Theorem update_leaves_other_objects col v db h l :
  (∀ k l0, get k (lastQuery db) = Some l0 → get k (records db) = Some l0) →
  wf (lastQuery db) →
  l ∉ (lastQuery db).*2 →
  (update col v db h).1 !! l = h !! l.
Proof.
  intros Hshare Hq Hl. unfold update.
  destruct (update_loop col v (records db) (lastQuery db) h) as [h' r] eqn:E.
  assert (h' !! l = h !! l) as Hh.
  { apply (update_loop_frame _ _ _ _ _ _ _ _ E). intros k l0 Hin.
    assert (l ≠ l0) as Hne.
    { intros ->. apply Hl, list_elem_of_fmap. by exists (k, l0). }
    split; [done|]. rewrite (Hshare k l0) by by apply elem_get.
    congruence. }
  by destruct r.
Qed.

(** X15 on the three books, after [where("pages", 20)]: the first book is
    not touched by [update("pages", 99)]. *)
Lemma update_leaves_other_objects_witness :
  let db := where_ "pages" (VNum 20) three_books.1 three_books.2 in
  wf (lastQuery db)
  ∧ (update "pages" (VNum 99) db three_books.2).1 !! 0%nat
    = Some (book 10).
Proof.
  intros db.
  assert (consistent db) as Hc.
  { apply consistent_where.
    apply (consistent_run _ new library consistent_new). }
  split; [apply (lastQuery_wf _ Hc)|].
  rewrite (update_leaves_other_objects "pages" (VNum 99) db three_books.2 0).
  - reflexivity.
  - apply (scope_shares _ Hc).
  - apply (lastQuery_wf _ Hc).
  - apply (bool_decide_unpack _). vm_compute. exact I.
Defined.

(** X16: after [delete()], [find] returns nothing for every identity that
    was in the query scope, and for every other identity what it returned
    before. *)
Theorem delete_then_find db h k :
  find k (Database.delete db).1 h
  = if decide (k ∈ keys (lastQuery db)) then (h, None) else find k db h.
Proof.
  unfold Database.delete.
  destruct (delete_loop _ _ _) as [recs n] eqn:E.
  apply delete_loop_spec in E as [-> _]. unfold find. simpl.
  rewrite get_filter_not_in. by case_decide.
Qed.

(** X17: in every reachable state, [delete()] returns [count()], the size
    of the query scope, and the record collection shrinks by as much. *)
Theorem delete_returns_count_reachable ops h0 :
  let db := (run ops (new, h0)).1 in
  (Database.delete db).2 = count true db
  ∧ (count false (Database.delete db).1 + count true db = count false db)%nat.
Proof.
  simpl. pose proof (consistent_run ops new h0 consistent_new) as Hc.
  destruct (run ops (new, h0)) as [db h]. simpl in *.
  unfold Database.delete.
  destruct (delete_loop (lastQuery db) (records db) 0) as [recs n] eqn:E.
  pose proof (delete_loop_count _ _ _ _ _ (lastQuery_wf _ Hc)
                (consistent_scope_in_records _ Hc) E) as Hn.
  apply delete_loop_spec in E as [-> Hsz]. simpl.
  specialize (Hsz (records_wf _ Hc)). unfold size in *. lia.
Qed.

End after_mutation.

(** ** Models *)

Section model_objects.
Import Database JSMap JSMapFacts.
Implicit Types (h : heap) (db : Database.t) (k : Z) (l : loc).

(** X18: writing a field of a model through its setter makes the model
    read the new value for that field and changes no other field of the
    model; writing [id] changes the model's own [id] and nothing in the
    store. *)
Theorem model_set_then_get (m : Model.t) key v h :
  key ≠ "id" → is_Some (deref h (Model.definition m) !! key) →
  let '(m', h') := Model.set_prop m key v h in
  Model.get_prop m' key h' = v
  ∧ (∀ key', key' ≠ key → Model.get_prop m' key' h' = Model.get_prop m key' h)
  ∧ Model.set_prop m "id" v h
    = ({| Model.id := v; Model.definition := Model.definition m |}, h).
Proof.
  intros Hkey Hsome. unfold Model.set_prop.
  rewrite decide_False, decide_True by done. split_and!.
  - unfold Model.get_prop. rewrite decide_False by done.
    apply get_field_set_field_eq.
    destruct (h !! Model.definition m) as [o|] eqn:Ho.
    + apply lookup_lt_is_Some_1. eauto.
    + unfold deref in Hsome. rewrite Ho in Hsome. simpl in Hsome.
      rewrite lookup_empty in Hsome. by destruct Hsome.
  - intros key' Hne. unfold Model.get_prop. case_decide; [done|].
    by apply get_field_set_field_other.
  - done.
Qed.

(** X18 on a model of the second book. *)
Lemma model_set_then_get_witness :
  let h := library ++ [book 20 ∪ {["id" := VNum 2]}] in
  let m := Model.constructor 3%nat h in
  Model.get_prop (Model.set_prop m "pages" (VNum 7) h).1 "pages"
    (Model.set_prop m "pages" (VNum 7) h).2 = VNum 7.
Proof.
  intros h m.
  pose proof (model_set_then_get m "pages" (VNum 7) h) as H.
  destruct (Model.set_prop m "pages" (VNum 7) h) as [m' h'].
  apply H; [discriminate|]. exists (VNum 20). reflexivity.
Defined.

(** X19: two retrievals of one record give two models over two different
    objects: writing to the first, through any of its fields, is not seen
    through the second. *)
Theorem models_are_independent db h k l :
  get k (records db) = Some l →
  let '(h1, r1) := find k db h in
  let '(h2, r2) := find k db h1 in
  ∃ m1 m2, r1 = Some m1 ∧ r2 = Some m2
    ∧ Model.definition m1 ≠ Model.definition m2
    ∧ ∀ key v,
        let '(m1', h3) := Model.set_prop m1 key v h2 in
        ∀ key', Model.get_prop m2 key' h3 = Model.get_prop m2 key' h2.
Proof.
  intros Hg. unfold find. rewrite Hg.
  rewrite !createFromTemplate_unfold. cbn beta iota.
  eexists _, _. split; [done|]. split; [done|].
  assert (length h ≠ length (h ++ [deref h l ∪ {["id" := VNum k]}])) as Hne
    by (rewrite length_app; simpl; lia).
  split; [done|]. intros key v.
  match goal with |- context [Model.set_prop ?m1 key v ?h2] =>
    destruct (Model.set_prop m1 key v h2) as [m1' h3] eqn:Es end.
  intros key'. unfold Model.get_prop, get_field, deref.
  by rewrite (set_prop_frame _ _ _ _ _ _ _ Es)
    by (simpl; rewrite length_app; simpl; lia).
Qed.

(** X19 on the second of the three books. *)
Lemma models_are_independent_witness :
  get 2 (records three_books.1) = Some 1%nat
  ∧ ∃ m1 m2,
      (find 2 three_books.1 three_books.2).2 = Some m1
      ∧ (find 2 three_books.1 (find 2 three_books.1 three_books.2).1).2
        = Some m2
      ∧ Model.definition m1 ≠ Model.definition m2.
Proof.
  assert (get 2 (records three_books.1) = Some 1%nat) as Hg by reflexivity.
  split; [exact Hg|].
  pose proof (models_are_independent three_books.1 three_books.2 2 1%nat Hg)
    as H.
  destruct (find 2 three_books.1 three_books.2) as [h1 r1].
  cbn [fst snd]. cbn beta iota in H.
  destruct (find 2 three_books.1 h1) as [h2 r2].
  cbn [fst snd]. cbn beta iota in H.
  destruct H as (m1 & m2 & E1 & E2 & Hne & _).
  exists m1, m2. split; [exact E1|]. split; [exact E2 | exact Hne].
Defined.

End model_objects.

(** ** A query chain from an empty scope *)

Section chains.
Import Database JSMap JSMapFacts.
Implicit Types (h : heap) (db : Database.t) (k : Z) (l : loc).

Lemma where_scan_from_empty col v db h :
  col ≠ "id" → wf (records db) → lastQuery db = [] →
  where_ col v db h = with_lastQuery (matches col v h (records db)) db.
Proof.
  intros Hcol Hr Hq. unfold where_. rewrite decide_False by done.
  by rewrite Hq, where_loop_empty.
Qed.

Lemma refs_valid_matches col v h (recs : list (Z * loc)) :
  refs_valid h recs → refs_valid h (matches col v h recs).
Proof.
  intros Hv k l [_ Hin]%list_elem_of_filter. by apply (Hv k).
Qed.

(** X20: on an empty query scope, [where(col, v).get()], for a column
    other than [id], returns one model per record whose [col] is strictly
    equal to [v], in the order of the collection, and every model returned
    reads a [col] strictly equal to [v]; the database ends as it began. *)
Theorem where_then_get col v db h :
  col ≠ "id" → wf (records db) → lastQuery db = [] →
  refs_valid h (records db) →
  let '(db', h', ms) := Database.get (where_ col v db h) h in
  db' = db
  ∧ length ms = length (matches col v h (records db))
  ∧ ∀ i k l, matches col v h (records db) !! i = Some (k, l) →
      ∃ m, ms !! i = Some m
        ∧ deref h' (Model.definition m) = deref h l ∪ {["id" := VNum k]}
        ∧ strict_eq (Model.get_prop m col h') v = true.
Proof.
  intros Hcol Hr Hq Hv. rewrite where_scan_from_empty by done.
  unfold Database.get. cbn [lastQuery with_lastQuery].
  destruct (forEach_push (matches col v h (records db)) h [])
    as [h' ms] eqn:E.
  pose proof (refs_valid_matches col v h _ Hv) as Hvm.
  split_and!.
  - destruct db as [a r q]. simpl in *. by subst q.
  - rewrite forEach_push_closed in E by done. injection E as <- <-.
    simpl. by rewrite length_imap.
  - intros i k l Hi.
    destruct (forEach_push_lookup _ _ _ _ _ _ _ Hvm E Hi)
      as (m & Hm & _ & Ho & _).
    exists m. split_and!; [done | done |].
    apply list_elem_of_lookup_2, list_elem_of_filter in Hi as [Hmatch _].
    simpl in Hmatch. unfold Model.get_prop, get_field.
    rewrite decide_False by done.
    rewrite Ho, lookup_union, lookup_singleton_ne by done.
    revert Hmatch. unfold get_field. by destruct (deref h l !! col).
Qed.

(** X20 on the three books. *)
Lemma where_then_get_witness :
  "pages" ≠ "id" ∧ wf (records three_books.1)
  ∧ lastQuery three_books.1 = []
  ∧ refs_valid three_books.2 (records three_books.1)
  ∧ length (Database.get (where_ "pages" (VNum 20)
                            three_books.1 three_books.2) three_books.2).2
    = 1%nat.
Proof.
  assert (wf (records three_books.1)) as Hw by solve_wf.
  assert (refs_valid three_books.2 (records three_books.1)) as Hv
    by solve_refs_valid.
  assert (lastQuery three_books.1 = []) as Hq by reflexivity.
  split; [done|]. split; [exact Hw|]. split; [exact Hq|]. split; [exact Hv|].
  pose proof (where_then_get "pages" (VNum 20) three_books.1 three_books.2)
    as H.
  destruct (Database.get _ three_books.2) as [[db' h'] ms].
  destruct H as (_ & Hlen & _); [done | exact Hw | exact Hq | exact Hv |].
  exact Hlen.
Defined.

(** X21: on an empty query scope, [where(col, v).last()], for a column
    other than [id], returns a model only when the record under the counter
    is there and matches: a scope whose matches are all older records gives
    nothing. *)
Theorem where_then_last col v db h :
  col ≠ "id" → wf (records db) → lastQuery db = [] →
  (last true (where_ col v db h) h).2 = None
  ↔ ¬ ∃ l, get (autoincrement db) (records db) = Some l
           ∧ strict_eq (get_field h l col) v = true.
Proof.
  intros Hcol Hr Hq. rewrite where_scan_from_empty by done.
  unfold last. cbn [switchRecordsRetrieval lastQuery autoincrement
                    with_lastQuery].
  destruct (get (autoincrement db) (matches col v h (records db)))
    as [l|] eqn:E.
  - unfold matches in E. apply elem_of_filter_wf in E as [Hg Hm]; [|done].
    simpl. split; [done|]. intros Hn. exfalso. apply Hn. eauto.
  - simpl. split; [|done]. intros _ (l & Hg & Hm).
    assert (get (autoincrement db) (matches col v h (records db)) = Some l)
      as E'; [|congruence].
    unfold matches. by apply elem_of_filter_wf.
Qed.

(** X21 on the three books: 20 pages is the second book, not the third. *)
Lemma where_then_last_witness :
  "pages" ≠ "id" ∧ wf (records three_books.1)
  ∧ lastQuery three_books.1 = []
  ∧ (last true (where_ "pages" (VNum 20) three_books.1 three_books.2)
       three_books.2).2 = None.
Proof.
  assert (wf (records three_books.1)) as Hw by solve_wf.
  assert (lastQuery three_books.1 = []) as Hq by reflexivity.
  split; [done|]. split; [exact Hw|]. split; [exact Hq|].
  apply (where_then_last "pages" (VNum 20) three_books.1 three_books.2);
    [done | exact Hw | exact Hq |].
  intros (l & Hg & Hm). vm_compute in Hg. injection Hg as <-.
  vm_compute in Hm. discriminate.
Defined.

(** X22: a definition that has an [id] of its own keeps it: [insert]
    stores the definition under the counter plus one, and the model it
    returns, like the model [find] returns for that identity, shows the
    definition's [id] instead. *)
Theorem own_id_overrides_identity (d : loc) (x : value) db h :
  deref h d !! "id" = Some x →
  let '(db', h', m) := insert d db h in
  get (autoincrement db + 1) (records db') = Some d
  ∧ Model.id m = x
  ∧ ∃ h'' m', find (autoincrement db + 1) db' h' = (h'', Some m')
      ∧ Model.id m' = x.
Proof.
  intros Hx. unfold insert. rewrite createFromTemplate_unfold. cbn beta iota.
  assert ((deref h d ∪ {["id" := VNum (autoincrement db + 1)]}) !! "id"
          = Some x) as Hu by by apply lookup_union_Some_l.
  split_and!.
  - apply get_set_eq.
  - unfold Model.constructor, get_field. simpl. by rewrite deref_snoc, Hu.
  - unfold find. cbn [records]. rewrite get_set_eq.
    rewrite createFromTemplate_unfold. eexists _, _. split; [done|].
    unfold Model.constructor, get_field. simpl. rewrite deref_snoc.
    rewrite lookup_union_Some_l with (x := x); [done|].
    rewrite deref_app_l; [done|].
    destruct (h !! d) as [o|] eqn:Ho.
    + apply lookup_lt_is_Some_1. eauto.
    + unfold deref in Hx. rewrite Ho in Hx. simpl in Hx.
      by rewrite lookup_empty in Hx.
Qed.

(** X22 on a definition with [id] 7, in a new database. *)
Lemma own_id_overrides_identity_witness :
  let h : heap := [{["id" := VNum 7; "pages" := VNum 1]}] in
  deref h 0%nat !! "id" = Some (VNum 7)
  ∧ Model.id (insert 0%nat new h).2 = VNum 7
  ∧ keys (records (insert 0%nat new h).1.1) = [1].
Proof.
  intros h.
  assert (deref h 0%nat !! "id" = Some (VNum 7)) as Hx by reflexivity.
  split; [exact Hx|].
  pose proof (own_id_overrides_identity 0%nat (VNum 7) new h Hx) as H.
  destruct (insert 0%nat new h) as [[db' h'] m] eqn:E.
  destruct H as (_ & Hm & _). split; [exact Hm|].
  injection E as <- _ _. reflexivity.
Defined.

End chains.
